(** * slogjson: the JSON sink of slog

  A shallow embedding of [sloggers/slogjson/slogjson.go].  The sink
  turns one [slog.Entry] into an ordered key/value list, encodes it,
  marshals it to JSON, appends a newline and hands the bytes to a
  [*syncwriter.Writer].

  Layout of the development:
  - [xerrors]     error values and [Errorf] with a trailing [": %w"];
  - [fmt]         the one [Sprintf] format the sink uses;
  - [Collab]      what is used of [time], [trace], [json] and of the
                  levels of [slog];
  - [slog]        fields, ordered maps, entries, [Encode];
  - [io]          programs over a heap of synchronized writers, with a
                  sequential interpreter that records the calls made on
                  the wrapped streams;
  - [syncwriter]  the mutex-protected writer;
  - [slogjson]    [jsonSink], [LogEntry], [Sync], and the wire format;
  - [sample]      concrete collaborators, entries and streams;
  - [conc]        an interleaving semantics of the same programs, and the
                  invariant of a pool of callers;
  - [sample_pool] a concrete pool of callers;
  - [client]      code that uses the sink: sequences of calls, reading
                  a caller value back, and [Make];
  - [progress]    what the callers of a pool have left to do;
  - the properties: the emitted object, sequential runs, concurrent
    callers, concrete runs, and then more of each, [Make] and progress
    included. *)

From Stdlib Require Import ZArith String Ascii List.
From Stdlib Require Import DecimalString DecimalZ DecimalPos.
From Stdlib.Strings Require Import Byte.
From stdpp Require Import base option list strings gmap functions relations.
Import ListNotations.
Local Open Scope string_scope.
Local Open Scope list_scope.
Local Set Warnings "-register-all".

(** Go's [[]byte]. *)
Definition bytes := list byte.

#[export] Instance byte_eq_decision : EqDecision byte := byte_eq_dec.

(** ** Errors *)
Module xerrors.

(** Go's [error] values, as far as the sink can tell them apart: an
    error made by a collaborator, or one made by [Errorf] around a
    cause. *)
Inductive error : Type :=
| errors_New (text : string)
| wrapError (msg : string) (err : error).

#[export] Instance error_eq_dec : EqDecision error.
Proof. solve_decision. Defined.

(** [err.Error()]: a wrapping error prints its message, a colon and a
    space, and then its cause. *)
Fixpoint Error (e : error) : string :=
  match e with
  | errors_New text => text
  | wrapError msg err => msg +:+ ": " +:+ Error err
  end.

(** [xerrors.Unwrap(err)]. *)
Definition Unwrap (e : error) : option error :=
  match e with
  | errors_New _ => None
  | wrapError _ err => Some err
  end.

(** [trimWrap format]: the format without a trailing [": %w"], when it
    has one. *)
Definition trimWrap (format : string) : option string :=
  let n := String.length format in
  if (4 <=? n)%nat && String.eqb (substring (n - 4) 4 format) ": %w"
  then Some (substring 0 (n - 4) format)
  else None.

(** [xerrors.Errorf(format, err)] for a format with no verb other than a
    possible trailing [": %w"].  With the suffix the result wraps [err];
    without it the result is a plain error carrying the format text. *)
Definition Errorf (format : string) (err : error) : error :=
  match trimWrap format with
  | Some msg => wrapError msg err
  | None => errors_New format
  end.

End xerrors.
Export xerrors.

(** ** Formatting *)
Module fmt.

(** The operands [%v] is applied to in this package. *)
Inductive operand : Type :=
| op_string (s : string)
| op_int (n : Z).

(** [%v] prints a string as it is and an [int] in decimal, with a
    leading minus sign when negative. *)
Definition verb_v (a : operand) : string :=
  match a with
  | op_string s => s
  | op_int n => NilZero.string_of_int (Z.to_int n)
  end.

(** [fmt.Sprintf("%v:%v", a, b)]. *)
Definition Sprintf_v_colon_v (a b : operand) : string :=
  verb_v a +:+ ":" +:+ verb_v b.

End fmt.

(** ** Encoded values

    What [slog.Encode] returns and [json.Marshal] consumes.  Objects keep
    their members in a list, so order and repeated keys are part of the
    value. *)
Inductive slog_Value : Type :=
| VNull
| VBool (b : bool)
| VInt (n : Z)
| VString (s : string)
| VList (l : list slog_Value)
| VMap (members : list (string * slog_Value)).

(** The keys of an object, in order; a value that is no object has none. *)
Definition keys (v : slog_Value) : list string :=
  match v with
  | VMap members => map fst members
  | _ => []
  end.

(** The first member stored under [k] in a member list. *)
Fixpoint assoc (k : string) (members : list (string * slog_Value))
  : option slog_Value :=
  match members with
  | [] => None
  | (k', v) :: rest => if String.eqb k k' then Some v else assoc k rest
  end.

(** [member k v]: the value of key [k] in the object [v]. *)
Definition member (k : string) (v : slog_Value) : option slog_Value :=
  match v with
  | VMap members => assoc k members
  | _ => None
  end.

(** ** Collaborators outside the package

    [time.Time], [slog.Level] and the identifiers of
    [go.opencensus.io/trace] are used through a handful of operations
    only: the sink compares span contexts with [!=] against the zero
    struct and reads the two identifiers.  [json.Marshal] either returns
    the bytes of its argument or an error. *)
Class Collab : Type := {
  time_Time : Type;
  slog_Level : Type;
  trace_TraceID : Type;
  trace_SpanID : Type;
  trace_SpanContext : Type;
  SpanContext_eq_dec :: EqDecision trace_SpanContext;
  SpanContext_zero : trace_SpanContext;
  sc_TraceID : trace_SpanContext -> trace_TraceID;
  sc_SpanID : trace_SpanContext -> trace_SpanID;
  Time_String : time_Time -> string;
  Level_String : slog_Level -> string;
  TraceID_String : trace_TraceID -> string;
  SpanID_String : trace_SpanID -> string;
  other : Type;
  encode_other : other -> slog_Value;
  json_Marshal : slog_Value -> bytes + error;
  context_Context : Type
}.

(** ** The logging library's data *)
Module slog.
Section WithCollab.
Context `{Collab}.

(** Go's [interface{}] restricted to the dynamic types that reach the
    encoder from this package, plus [other] for what callers supply.
    [Field] is [slog.Field], and [F] builds one as [slog.F] does. *)
Inductive any : Type :=
| any_Time (t : time_Time)
| any_Level (l : slog_Level)
| any_string (s : string)
| any_TraceID (t : trace_TraceID)
| any_SpanID (s : trace_SpanID)
| any_Map (m : list Field)
| any_other (x : other)
with Field : Type :=
| F (name : string) (value : any).

Definition Name (f : Field) : string := let 'F n _ := f in n.
Definition FieldValue (f : Field) : any := let 'F _ v := f in v.

(** An ordered map is a slice of fields, in insertion order;
    [slog.Map(fs...)] is the map of its arguments. *)
Definition MapT : Type := list Field.
Definition Map (fs : list Field) : MapT := fs.

(** [slog.Entry]. *)
Record Entry : Type := {
  Time : time_Time;
  Level : slog_Level;
  Message : string;
  LoggerName : string;
  Func : string;
  File : string;
  Line : Z;
  SpanContext : trace_SpanContext;
  Fields : MapT
}.

(** Modelled from the spec: [slog.Encode] lives in the parent package and
    is not part of this file.  Section 6 describes it as an
    ordered-map-to-JSON-object encoder, and section 4.1 says the
    timestamp, the level and the tracing identifiers are emitted in their
    string forms.  A map becomes an object with one member per field, in
    the map's order; [other] values go through [encode_other]. *)
Fixpoint Encode (v : any) : slog_Value :=
  match v with
  | any_Time t => VString (Time_String t)
  | any_Level l => VString (Level_String l)
  | any_string s => VString s
  | any_TraceID t => VString (TraceID_String t)
  | any_SpanID s => VString (SpanID_String s)
  | any_Map m =>
      VMap (map (fun f => match f with F n x => (n, Encode x) end) m)
  | any_other x => encode_other x
  end.

End WithCollab.
End slog.

(** ** Programs over synchronized writers *)
Module io.

(** A [*syncwriter.Writer]: the address of a writer object on the heap.
    Address [0] is [nil]. *)
Definition ref := nat.

(** A call that reached a wrapped stream. *)
Inductive call : Type :=
| call_Write (r : ref) (p : bytes)
| call_Sync (r : ref).

#[export] Instance call_eq_dec : EqDecision call.
Proof. solve_decision. Defined.

(** A program is a tree of the operations code can perform on writer
    objects, each with the code that consumes its result:
    - [Lock r] and [Unlock r] are [r.mu.Lock()] and [r.mu.Unlock()];
    - [IsSyncer r] is the type assertion [r.w.(interface{ Sync() error })];
    - [CallWrite r p] is [r.w.Write(p)], returning [(n, err)];
    - [CallSync r] is the wrapped stream's [Sync()]. *)
Inductive prog (A : Type) : Type :=
| Ret (a : A)
| Lock (r : ref) (k : prog A)
| Unlock (r : ref) (k : prog A)
| IsSyncer (r : ref) (k : bool -> prog A)
| CallWrite (r : ref) (p : bytes) (k : Z * option error -> prog A)
| CallSync (r : ref) (k : option error -> prog A).
Arguments Ret {A} a.
Arguments Lock {A} r k.
Arguments Unlock {A} r k.
Arguments IsSyncer {A} r k.
Arguments CallWrite {A} r p k.
Arguments CallSync {A} r k.

(** Sequencing: run [m], then [f] on its result. *)
Fixpoint bind {A B : Type} (m : prog A) (f : A -> prog B) : prog B :=
  match m with
  | Ret a => f a
  | Lock r k => Lock r (bind k f)
  | Unlock r k => Unlock r (bind k f)
  | IsSyncer r k => IsSyncer r (fun ok => bind (k ok) f)
  | CallWrite r p k => CallWrite r p (fun res => bind (k res) f)
  | CallSync r k => CallSync r (fun e => bind (k e) f)
  end.

Section Sequential.
(** The state a wrapped stream keeps between calls. *)
Context {St : Type}.

(** An [io.Writer] interface value: its [Write] method and, when its
    dynamic type has one, its [Sync] method. *)
Record Writer : Type := {
  Write : bytes -> St -> (Z * option error) * St;
  Sync : option (St -> option error * St)
}.

(** A [syncwriter.Writer] object on the heap: the mutex, the wrapped
    interface value and the state of the stream behind it. *)
Record object : Type := {
  mu : bool;
  w : Writer;
  data : St
}.

Definition set_mu (b : bool) (o : object) : object :=
  {| mu := b; w := w o; data := data o |}.
Definition set_data (d : St) (o : object) : object :=
  {| mu := mu o; w := w o; data := d |}.

(** The heap: the writer objects by address. *)
Abbreviation heap := (gmap ref object).

(** How a sequential run ends: with a result, blocked forever on a mutex
    that is held, or in a run-time panic (a nil or dangling writer, an
    unlock of an unlocked mutex, a missing method). *)
Inductive outcome (A : Type) : Type :=
| Done (a : A)
| Blocked
| Panic.
Arguments Done {A} a.
Arguments Blocked {A}.
Arguments Panic {A}.

(** The result of [run]: how the program ended, the heap it left, and the
    calls it made on wrapped streams, oldest first. *)
Record result (A : Type) : Type := {
  ending : outcome A;
  final : heap;
  calls : list call
}.
Arguments ending {A} r.
Arguments final {A} r.
Arguments calls {A} r.

Definition stop {A : Type} (e : outcome A) (h : heap) : result A :=
  {| ending := e; final := h; calls := [] |}.

Definition after {A : Type} (c : call) (r : result A) : result A :=
  {| ending := ending r; final := final r; calls := c :: calls r |}.

(** One caller running [p] to its end on heap [h]. *)
Fixpoint run {A : Type} (p : prog A) (h : heap) : result A :=
  match p with
  | Ret a => stop (Done a) h
  | Lock r k =>
      match h !! r with
      | None => stop Panic h
      | Some o =>
          if mu o then stop Blocked h
          else run k (<[r := set_mu true o]> h)
      end
  | Unlock r k =>
      match h !! r with
      | None => stop Panic h
      | Some o =>
          if mu o then run k (<[r := set_mu false o]> h)
          else stop Panic h
      end
  | IsSyncer r k =>
      match h !! r with
      | None => stop Panic h
      | Some o => run (k (bool_decide (is_Some (Sync (w o))))) h
      end
  | CallWrite r p k =>
      match h !! r with
      | None => stop Panic h
      | Some o =>
          let '(res, d) := Write (w o) p (data o) in
          after (call_Write r p) (run (k res) (<[r := set_data d o]> h))
      end
  | CallSync r k =>
      match h !! r with
      | None => stop Panic h
      | Some o =>
          match Sync (w o) with
          | None => stop Panic h
          | Some sync =>
              let '(e, d) := sync (data o) in
              after (call_Sync r) (run (k e) (<[r := set_data d o]> h))
          end
      end
  end.

End Sequential.
Arguments Writer St : clear implicits.
Arguments object St : clear implicits.
Abbreviation heap St := (gmap ref (object St)).
Arguments result St A : clear implicits.
Arguments Done {A} a.
Arguments Blocked {A}.
Arguments Panic {A}.
Arguments ending {St A} r.
Arguments final {St A} r.
Arguments calls {St A} r.

End io.

(** ** The synchronized writer *)
Module syncwriter.
Import io.

(** Modelled from the spec: package [internal/syncwriter] is not part of
    this file.  Section 4.2: [write] acquires the exclusive lock, performs
    one write call with the full byte sequence, releases the lock and
    returns what the wrapped writer returned. *)
Definition Write (w : ref) (p : bytes) : prog (Z * option error) :=
  Lock w (CallWrite w p (fun res => Unlock w (Ret res))).

(** Modelled from the spec: section 4.2, [sync]: when the wrapped stream
    has a sync capability, acquire the same lock, invoke it and return its
    error; otherwise succeed without doing anything. *)
Definition Sync (w : ref) : prog (option error) :=
  IsSyncer w (fun ok =>
    if ok then Lock w (CallSync w (fun e => Unlock w (Ret e)))
    else Ret None).

End syncwriter.

(** ** The JSON sink *)
Module slogjson.
Import io slog.

(** [type jsonSink struct { w *syncwriter.Writer; color bool }]. *)
Record jsonSink : Type := {
  w : ref;
  color : bool
}.

(** The byte ['\n']. *)
Definition newline : byte := x0a.

Section WithCollab.
Context `{Collab}.

(** Lines 52 to 72 of [LogEntry]: the ordered map [m] the entry is turned
    into.  Go's [append(m, x, y)] is [m ++ [x; y]]. *)
Definition LogEntry_m (ent : Entry) : MapT :=
  let m := Map [
    F "ts" (any_Time (Time ent));
    F "level" (any_Level (Level ent));
    F "component" (any_string (LoggerName ent));
    F "msg" (any_string (Message ent));
    F "caller" (any_string
      (fmt.Sprintf_v_colon_v (fmt.op_string (File ent)) (fmt.op_int (Line ent))));
    F "func" (any_string (Func ent))
  ] in
  let m :=
    if negb (bool_decide (SpanContext ent = SpanContext_zero)) then
      m ++ [
        F "trace" (any_TraceID (sc_TraceID (SpanContext ent)));
        F "span" (any_SpanID (sc_SpanID (SpanContext ent)))
      ]
    else m in
  let m :=
    if (0 <? length (Fields ent))%nat then
      m ++ [ F "fields" (any_Map (Fields ent)) ]
    else m in
  m.

(** [func (s jsonSink) LogEntry(ctx context.Context, ent slog.Entry) error];
    a [nil] error is [None]. *)
Definition LogEntry (s : jsonSink) (ctx : context_Context) (ent : Entry)
  : prog (option error) :=
  let m := LogEntry_m ent in
  let v := Encode (any_Map m) in
  match json_Marshal v with
  | inr err =>
      Ret (Some (Errorf "slogjson: failed to encode entry to JSON: %w" err))
  | inl buf =>
      let buf := buf ++ [newline] in
      bind (syncwriter.Write (w s) buf) (fun res =>
        match snd res with
        | Some err =>
            Ret (Some (Errorf "slogjson: failed to write JSON entry: %w" err))
        | None => Ret None
        end)
  end.

(** [func (s jsonSink) Sync() error]. *)
Definition Sync (s : jsonSink) : prog (option error) :=
  syncwriter.Sync (w s).

(** The value [LogEntry] hands to [json.Marshal]: the object that is
    emitted for [ent]. *)
Definition emitted (ent : Entry) : slog_Value :=
  Encode (any_Map (LogEntry_m ent)).

(** The bytes of one [Write] call for [ent], when marshalling succeeds. *)
Definition payload (ent : Entry) : option bytes :=
  match json_Marshal (emitted ent) with
  | inl buf => Some (buf ++ [newline])
  | inr _ => None
  end.

(** Lines 82 to 85 of [LogEntry]: what is done with the result of the
    [Write]. *)
Definition after_Write (res : Z * option error) : prog (option error) :=
  match snd res with
  | Some err =>
      Ret (Some (Errorf "slogjson: failed to write JSON entry: %w" err))
  | None => Ret None
  end.

(** The error [LogEntry] returns for the error of the [Write]. *)
Definition write_outcome (err : option error) : option error :=
  match err with
  | Some err => Some (Errorf "slogjson: failed to write JSON entry: %w" err)
  | None => None
  end.

(** What [LogEntry] still has to do once it holds the mutex of [r] and the
    wrapped [Write] has returned [res]; and the same for [Sync]. *)
Definition write_rest (r : ref) (res : Z * option error)
  : prog (option error) :=
  Unlock r (after_Write res).

Definition sync_rest (r : ref) (e : option error) : prog (option error) :=
  Unlock r (Ret e).

(** Lines 74 to 85 of [LogEntry] as a function of the value [v] that is
    handed to [json.Marshal]: when marshalling fails, return the wrapped
    error; otherwise hand the bytes and one newline to the sink's writer
    in one [Write], and return what line 82 makes of its error. *)
Definition marshal_and_write (s : jsonSink) (v : slog_Value)
  : prog (option error) :=
  match json_Marshal v with
  | inr err =>
      Ret (Some (Errorf "slogjson: failed to encode entry to JSON: %w" err))
  | inl buf =>
      bind (syncwriter.Write (w s) (buf ++ [newline])) after_Write
  end.

(** The wire format of the package documentation: six keys that are always
    there, then the optional ones. *)
Definition mandatory_keys : list string :=
  ["ts"; "level"; "component"; "msg"; "caller"; "func"].

(** The entry carries tracing identifiers: its span context is not the
    zero struct. *)
Definition tracing_present (ent : Entry) : bool :=
  negb (bool_decide (SpanContext ent = SpanContext_zero)).

(** The entry carries at least one named field. *)
Definition fields_present (ent : Entry) : bool :=
  negb (bool_decide (Fields ent = [])).

Definition wire_keys (ent : Entry) : list string :=
  mandatory_keys
  ++ (if tracing_present ent then ["trace"; "span"] else [])
  ++ (if fields_present ent then ["fields"] else []).

(** The object a field collection is written as: one member per field, in
    the order of the collection. *)
Definition fields_object (fs : MapT) : slog_Value :=
  VMap (map (fun f => (Name f, Encode (FieldValue f))) fs).

(** The members of the emitted object, section by section. *)
Definition mandatory_members (ent : Entry) : list (string * slog_Value) :=
  [ ("ts", VString (Time_String (Time ent)));
    ("level", VString (Level_String (Level ent)));
    ("component", VString (LoggerName ent));
    ("msg", VString (Message ent));
    ("caller", VString (File ent +:+ ":" +:+
                        NilZero.string_of_int (Z.to_int (Line ent))));
    ("func", VString (Func ent)) ].

Definition tracing_members (ent : Entry) : list (string * slog_Value) :=
  if tracing_present ent then
    [ ("trace", VString (TraceID_String (sc_TraceID (SpanContext ent))));
      ("span", VString (SpanID_String (sc_SpanID (SpanContext ent)))) ]
  else [].

Definition fields_members (ent : Entry) : list (string * slog_Value) :=
  if fields_present ent then [ ("fields", fields_object (Fields ent)) ]
  else [].

(** The characters a decimal number is made of. *)
Definition decimal_char (c : ascii) : bool :=
  Ascii.eqb c "-"%char
  || ((48 <=? N_of_ascii c)%N && (N_of_ascii c <=? 57)%N).

Fixpoint all_chars (f : ascii -> bool) (s : string) : bool :=
  match s with
  | EmptyString => true
  | String c rest => f c && all_chars f rest
  end.

End WithCollab.
End slogjson.

(** ** A concrete set of collaborators

    Used to run the sink on concrete entries: span contexts shaped like
    those of OpenCensus, a handful of levels, integers as the callers'
    other values, and a small JSON printer. *)
Module sample.
Import io slog slogjson.

Inductive level : Type := DEBUG | INFO | WARN | ERROR.

Definition level_String (l : level) : string :=
  match l with
  | DEBUG => "DEBUG"
  | INFO => "INFO"
  | WARN => "WARN"
  | ERROR => "ERROR"
  end.

(** A span context: a 16-byte trace ID, an 8-byte span ID and the option
    bits. *)
Record span_context : Type := {
  TraceID : bytes;
  SpanID : bytes;
  TraceOptions : Z
}.

#[export] Instance span_context_eq_dec : EqDecision span_context.
Proof. solve_decision. Defined.

Definition zero_span_context : span_context :=
  {| TraceID := repeat x00 16; SpanID := repeat x00 8; TraceOptions := 0 |}.

Definition hex_digit (n : N) : ascii :=
  match String.get (N.to_nat n) "0123456789abcdef" with
  | Some c => c
  | None => "?"%char
  end.

(** Two lower-case hexadecimal digits per byte. *)
Fixpoint hex (bs : bytes) : string :=
  match bs with
  | [] => EmptyString
  | b :: rest =>
      let n := Byte.to_N b in
      String (hex_digit (n / 16)) (String (hex_digit (n mod 16)) (hex rest))
  end.

(** The double-quote character. *)
Definition dquote : ascii := ascii_of_nat 34.

(** The text of one character inside a JSON string. *)
Definition escape_char (c : ascii) : string :=
  let n := N_of_ascii c in
  if Ascii.eqb c dquote then String "\"%char (String c EmptyString)
  else if Ascii.eqb c "\"%char then String c (String c EmptyString)
  else if (n <? 32)%N || Ascii.eqb c "<"%char || Ascii.eqb c ">"%char
          || Ascii.eqb c "&"%char then
    "\u00" +:+ String (hex_digit (n / 16))
                (String (hex_digit (n mod 16)) EmptyString)
  else String c EmptyString.

Fixpoint escape (s : string) : string :=
  match s with
  | EmptyString => EmptyString
  | String c rest => escape_char c +:+ escape rest
  end.

Definition quote (s : string) : string :=
  String dquote (escape s) +:+ String dquote EmptyString.

(** The JSON text of a value; members and elements are separated by a
    comma and nothing else. *)
Fixpoint text (v : slog_Value) : string :=
  match v with
  | VNull => "null"
  | VBool true => "true"
  | VBool false => "false"
  | VInt n => NilZero.string_of_int (Z.to_int n)
  | VString s => quote s
  | VList l => "[" +:+ String.concat "," (map text l) +:+ "]"
  | VMap members =>
      "{" +:+ String.concat ","
        (map (fun kv => quote (fst kv) +:+ ":" +:+ text (snd kv)) members)
      +:+ "}"
  end.

(** A marshaller that accepts every value. *)
Definition marshal (v : slog_Value) : bytes + error :=
  inl (list_byte_of_string (text v)).

(** A marshaller that accepts nothing. *)
Definition marshal_unsupported (v : slog_Value) : bytes + error :=
  inr (errors_New "json: unsupported value").

Definition collab_with (m : slog_Value -> bytes + error) : Collab := {|
  time_Time := string;
  slog_Level := level;
  trace_TraceID := bytes;
  trace_SpanID := bytes;
  trace_SpanContext := span_context;
  SpanContext_zero := zero_span_context;
  sc_TraceID := TraceID;
  sc_SpanID := SpanID;
  Time_String := fun t => t;
  Level_String := level_String;
  TraceID_String := hex;
  SpanID_String := hex;
  other := Z;
  encode_other := VInt;
  json_Marshal := m;
  context_Context := unit
|}.

Definition collab : Collab := collab_with marshal.
Definition collab_unsupported : Collab := collab_with marshal_unsupported.

(** The entry of the example scenario in section 8 of the spec. *)
Definition entry_with (m : slog_Value -> bytes + error)
  : @Entry (collab_with m) :=
  let C := collab_with m in
  {| Time := "2019-09-10T20:19:07.159852-05:00" : @time_Time C;
     Level := INFO : @slog_Level C;
     Message := "hi";
     LoggerName := "comp.subcomp";
     Func := "pkg.TestExampleTest";
     File := "slog/examples_test.go";
     Line := 62;
     SpanContext := zero_span_context : @trace_SpanContext C;
     Fields := [ @F C "myField" (@any_string C "fieldValue") ] |}.

Definition entry : @Entry collab := entry_with marshal.

(** The same entry inside a sampled span. *)
Definition traced_entry : @Entry collab :=
  {| Time := Time entry;
     Level := Level entry;
     Message := Message entry;
     LoggerName := LoggerName entry;
     Func := Func entry;
     File := File entry;
     Line := Line entry;
     SpanContext :=
       {| TraceID := repeat x00 15 ++ [x2a];
          SpanID := repeat x00 7 ++ [x07];
          TraceOptions := 1 |} : @trace_SpanContext collab;
     Fields := Fields entry |}.

(** An in-memory buffer: [Write] appends and reports the full length; the
    type has no [Sync] method. *)
Definition buffer : Writer bytes :=
  {| io.Write := fun p st => ((Z.of_nat (length p), None), st ++ p);
     io.Sync := None |}.

(** A closed pipe: every [Write] fails and nothing is stored. *)
Definition closed_pipe : Writer bytes :=
  {| io.Write := fun p st => ((0%Z, Some (errors_New "io: read/write on closed pipe")), st);
     io.Sync := None |}.

(** A file whose [Sync] fails. *)
Definition file_sync_fails : Writer bytes :=
  {| io.Write := fun p st => ((Z.of_nat (length p), None), st ++ p);
     io.Sync := Some (fun st => (Some (errors_New "sync: input/output error"), st)) |}.

(** A heap with one unlocked writer object at address 1. *)
Definition heap_of (wr : Writer bytes) : heap bytes :=
  {[ 1%nat := {| mu := false; io.w := wr; data := [] |} ]}.

Definition sink : jsonSink := {| slogjson.w := 1%nat; color := false |}.

End sample.

(** ** Concurrent callers

    An interleaving semantics for the programs of [io].  A wrapped stream
    is a sequence of bytes that a [Write] call extends one byte at a time,
    so that two calls running at once can mix their bytes; every byte is
    tagged with the caller that wrote it.  A [Write] may stop with an
    error after any number of bytes, and a [Sync] may return any error. *)
Module conc.
Import io slog slogjson.

(** A writer object shared by the callers. *)
Record shared : Type := {
  locked : bool;
  has_sync : bool;
  output : list (nat * byte)
}.

Definition set_locked (b : bool) (o : shared) : shared :=
  {| locked := b; has_sync := has_sync o; output := output o |}.

Definition emit (i : nat) (b : byte) (o : shared) : shared :=
  {| locked := locked o; has_sync := has_sync o;
     output := output o ++ [(i, b)] |}.

(** The bytes on the stream, without their tags. *)
Definition stream (o : shared) : bytes := (output o).*2.

(** A caller is running a program, or is inside a [Write] call on the
    wrapped stream with [rest] still to write and [n] bytes written. *)
Inductive thread (A : Type) : Type :=
| Running (p : prog A)
| Writing (r : ref) (rest : bytes) (n : Z) (k : Z * option error -> prog A).
Arguments Running {A} p.
Arguments Writing {A} r rest n k.

Abbreviation pool A := (list (thread A)).
Abbreviation store := (gmap ref shared).

(** One step of one caller. *)
Inductive step {A : Type} : pool A * store -> pool A * store -> Prop :=
| step_lock ts h i r k o :
    ts !! i = Some (Running (Lock r k)) ->
    h !! r = Some o ->
    locked o = false ->
    step (ts, h) (<[i := Running k]> ts, <[r := set_locked true o]> h)
| step_unlock ts h i r k o :
    ts !! i = Some (Running (Unlock r k)) ->
    h !! r = Some o ->
    locked o = true ->
    step (ts, h) (<[i := Running k]> ts, <[r := set_locked false o]> h)
| step_is_syncer ts h i r k o :
    ts !! i = Some (Running (IsSyncer r k)) ->
    h !! r = Some o ->
    step (ts, h) (<[i := Running (k (has_sync o))]> ts, h)
| step_write_begin ts h i r p k :
    ts !! i = Some (Running (CallWrite r p k)) ->
    step (ts, h) (<[i := Writing r p 0 k]> ts, h)
| step_write_byte ts h i r b rest n k o :
    ts !! i = Some (Writing r (b :: rest) n k) ->
    h !! r = Some o ->
    step (ts, h) (<[i := Writing r rest (n + 1) k]> ts, <[r := emit i b o]> h)
| step_write_end ts h i r n k :
    ts !! i = Some (Writing r [] n k) ->
    step (ts, h) (<[i := Running (k (n, None))]> ts, h)
| step_write_fail ts h i r rest n k e :
    ts !! i = Some (Writing r rest n k) ->
    step (ts, h) (<[i := Running (k (n, Some e))]> ts, h)
| step_sync ts h i r k o e :
    ts !! i = Some (Running (CallSync r k)) ->
    h !! r = Some o ->
    has_sync o = true ->
    step (ts, h) (<[i := Running (k e)]> ts, h).

(** The bytes of a list of segments, each byte tagged with the caller of
    its segment. *)
Definition tagged (segs : list (nat * bytes)) : list (nat * byte) :=
  concat (map (fun seg => map (pair (fst seg)) (snd seg)) segs).

Section WithCollab.
Context `{Collab}.

(** What a caller asks of the sink. *)
Inductive job : Type :=
| Log (ctx : context_Context) (ent : Entry)
| Flush.

Definition start (s : jsonSink) (j : job) : prog (option error) :=
  match j with
  | Log ctx ent => LogEntry s ctx ent
  | Flush => Sync s
  end.

(** One caller per job, all on the sink [s], none started yet. *)
Definition spawn (s : jsonSink) (jobs : list job) : pool (option error) :=
  (fun j => Running (start s j)) <$> jobs.

(** *** The invariant of a pool of callers on one sink *)

(** Where a caller stands with respect to the mutex, and the bytes it has
    put on the stream since it began its [Write], if it has begun. *)
Inductive phase : Type :=
| Outside (seg : option bytes)
| Inside (seg : option bytes).

Definition wrote (ph : phase) : option bytes :=
  match ph with
  | Outside seg => seg
  | Inside seg => seg
  end.

Definition inside (ph : phase) : bool :=
  match ph with
  | Outside _ => false
  | Inside _ => true
  end.

(** A caller is in a call on the wrapped stream. *)
Definition calling {A : Type} (t : thread A) : bool :=
  match t with
  | Writing _ _ _ _ => true
  | Running (CallWrite _ _ _) => true
  | Running (CallSync _ _) => true
  | Running _ => false
  end.

(** The points a caller of [LogEntry] or [Sync] on the sink [s] goes
    through, each with its phase. *)
Inductive tinv (s : jsonSink) : job -> thread (option error) -> phase -> Prop :=
| tinv_failed ctx ent cause :
    json_Marshal (emitted ent) = inr cause ->
    tinv s (Log ctx ent)
      (Running (Ret (Some (wrapError "slogjson: failed to encode entry to JSON" cause))))
      (Outside None)
| tinv_ready ctx ent P :
    payload ent = Some P ->
    tinv s (Log ctx ent)
      (Running (Lock (w s) (CallWrite (w s) P (write_rest (w s)))))
      (Outside None)
| tinv_locked ctx ent P :
    payload ent = Some P ->
    tinv s (Log ctx ent)
      (Running (CallWrite (w s) P (write_rest (w s))))
      (Inside None)
| tinv_writing ctx ent P c rest n :
    payload ent = Some P ->
    c ++ rest = P ->
    tinv s (Log ctx ent) (Writing (w s) rest n (write_rest (w s)))
      (Inside (Some c))
| tinv_written ctx ent P c res :
    payload ent = Some P ->
    c `prefix_of` P ->
    (snd res = None -> c = P) ->
    tinv s (Log ctx ent) (Running (write_rest (w s) res)) (Inside (Some c))
| tinv_logged ctx ent P c e :
    payload ent = Some P ->
    c `prefix_of` P ->
    (e = None -> c = P) ->
    tinv s (Log ctx ent) (Running (Ret e)) (Outside (Some c))
| tinv_unchecked :
    tinv s Flush (Running (Sync s)) (Outside None)
| tinv_checked :
    tinv s Flush
      (Running (Lock (w s) (CallSync (w s) (sync_rest (w s)))))
      (Outside None)
| tinv_syncing :
    tinv s Flush (Running (CallSync (w s) (sync_rest (w s)))) (Inside None)
| tinv_synced e :
    tinv s Flush (Running (sync_rest (w s) e)) (Inside None)
| tinv_flushed e :
    tinv s Flush (Running (Ret e)) (Outside None).

(** The invariant: every caller is at one of its points, the stream is
    made of one segment per caller that has begun to write, at most one
    caller is inside the mutex, and the segment of a caller inside is the
    last one. *)
Record inv (s : jsonSink) (jobs : list job) (ts : pool (option error))
    (h : store) (phs : nat -> phase) (segs : list (nat * bytes))
    (o : shared) : Prop := {
  inv_length : length ts = length jobs;
  inv_default : forall i, (length jobs <= i)%nat -> phs i = Outside None;
  inv_threads : forall i j t,
    jobs !! i = Some j -> ts !! i = Some t -> tinv s j t (phs i);
  inv_heap : h !! w s = Some o;
  inv_output : output o = tagged segs;
  inv_nodup : NoDup segs.*1;
  inv_segs_wrote : forall i c, (i, c) ∈ segs -> wrote (phs i) = Some c;
  inv_wrote_segs : forall i c, wrote (phs i) = Some c -> (i, c) ∈ segs;
  inv_excl : forall i j,
    inside (phs i) = true -> inside (phs j) = true -> i = j;
  inv_unlocked : locked o = false -> forall i, inside (phs i) = false;
  inv_last : forall i c,
    phs i = Inside (Some c) -> exists segs', segs = segs' ++ [(i, c)]
}.

End WithCollab.
End conc.

(** ** A concrete pool of callers *)
Module sample_pool.
Import io slog slogjson conc sample.

(** A marshaller that prints every value as an empty object. *)
Definition marshal_braces (v : slog_Value) : bytes + error :=
  inl [x7b; x7d].

Definition braces : Collab := collab_with marshal_braces.

(** Two callers that log and one that syncs. *)
Definition three_jobs : list (@job braces) :=
  [ @Log braces tt (entry_with marshal_braces);
    @Flush braces;
    @Log braces tt (entry_with marshal_braces) ].

Definition shared_start : store :=
  {[ 1%nat := {| locked := false; has_sync := true; output := [] |} ]}.

Definition shared_end : store :=
  {[ 1%nat := {| locked := false; has_sync := true;
                 output := tagged [ (2%nat, [x7b; x7d; x0a]);
                                    (0%nat, [x7b; x7d; x0a]) ] |} ]}.

Definition pool_end : pool (option error) :=
  [ Running (Ret None); Running (Ret None); Running (Ret None) ].

(** The three callers when caller 2 holds the mutex and has written the
    first byte of its line, while callers 0 and 1 have not started: caller
    0 waits for the mutex. *)
Definition pool_contended : pool (option error) :=
  [ Running (@start braces sink (@Log braces tt (entry_with marshal_braces)));
    Running (@start braces sink (@Flush braces));
    Writing 1%nat [x7d; x0a] 1 (write_rest 1%nat) ].

Definition shared_contended : store :=
  {[ 1%nat := {| locked := true; has_sync := true;
                 output := [ (2%nat, x7b) ] |} ]}.

(** Two callers that call [Write] on the wrapped stream of writer 1
    directly, without its mutex. *)
Definition bare_writers : pool unit :=
  [ Running (CallWrite 1%nat [x61; x62] (fun _ => Ret tt));
    Running (CallWrite 1%nat [x63; x64] (fun _ => Ret tt)) ].

Definition mixed_end : store :=
  {[ 1%nat := {| locked := false; has_sync := true;
                 output := [ (0%nat, x61); (1%nat, x63);
                             (0%nat, x62); (1%nat, x64) ] |} ]}.

End sample_pool.

(** ** Using the sink *)
Module client.
Import io slog slogjson.

Section WithCollab.
Context `{Collab}.

(** The entry [ent] with the field collection [fs] in place of its own. *)
Definition with_Fields (fs : MapT) (ent : Entry) : Entry :=
  {| Time := Time ent; Level := Level ent; Message := Message ent;
     LoggerName := LoggerName ent; Func := Func ent; File := File ent;
     Line := Line ent; SpanContext := SpanContext ent; Fields := fs |}.

(** One [LogEntry] call after the other on the same sink, each result
    dropped. *)
Fixpoint LogEntries (s : jsonSink) (ctx : context_Context)
    (ents : list Entry) : prog unit :=
  match ents with
  | [] => Ret tt
  | ent :: rest => bind (LogEntry s ctx ent) (fun _ => LogEntries s ctx rest)
  end.

(** The [Write] calls of a sequence of entries on writer [r]: one per
    entry that can be marshalled, in order. *)
Definition writes_of (r : ref) (ents : list Entry) : list call :=
  omap (fun ent => call_Write r <$> payload ent) ents.

(** The state of a stream after it has been handed, in order, the payload
    of each entry that can be marshalled. *)
Fixpoint stream_after {St : Type} (wr : Writer St) (st : St)
    (ents : list Entry) : St :=
  match ents with
  | [] => st
  | ent :: rest =>
      match payload ent with
      | Some p => stream_after wr (snd (Write wr p st)) rest
      | None => stream_after wr st rest
      end
  end.

End WithCollab.

(** A stream that stores what it is given: every [Write] succeeds, reports
    the full length and appends the bytes. *)
Definition appending (wr : Writer bytes) : Prop :=
  forall p st, Write wr p st = ((Z.of_nat (length p), None), st ++ p).

(** The text before the last colon of [s] and the text after it. *)
Fixpoint split_last_colon (s : string) : option (string * string) :=
  match s with
  | EmptyString => None
  | String c rest =>
      match split_last_colon rest with
      | Some (a, b) => Some (String c a, b)
      | None =>
          if Ascii.eqb c ":"%char then Some (EmptyString, rest) else None
      end
  end.

(** Reading a [caller] value back: the file is what stands before the
    last colon, the line is the decimal number after it. *)
Definition read_caller (s : string) : option (string * Z) :=
  match split_last_colon s with
  | Some (file, line) =>
      option_map (fun d => (file, Z.of_int d)) (NilZero.int_of_string line)
  | None => None
  end.

Section Make.
Context `{Collab}.
Context {St : Type}.

(** [slog.Logger] and [slog.Make], which puts a sink into a logger, and
    [humanfmt.IsTTY], which tells whether a stream is a terminal. *)
Variable Logger : Type.
Variable slog_Make : jsonSink -> Logger.
Variable IsTTY : Writer St -> bool.

(** Modelled from the spec: [syncwriter.New] is not part of this file.
    Section 4.3: it wraps the stream in a synchronized writer and performs
    no I/O.  The new object gets an address that is not in use and is not
    [nil]; its mutex is free; the stream [wr], in state [st], is behind it. *)
Definition New (wr : Writer St) (st : St) (h : heap St) : ref * heap St :=
  let r := fresh ({[0%nat]} ∪ dom h) in
  (r, <[r := {| mu := false; io.w := wr; data := st |}]> h).

(** [func Make(w io.Writer) slog.Logger]. *)
Definition Make (wr : Writer St) (st : St) (h : heap St)
  : Logger * heap St :=
  let '(r, h') := New wr st h in
  (slog_Make {| slogjson.w := r; color := IsTTY wr |}, h').

End Make.
End client.

(** ** Progress of concurrent callers *)
Module progress.
Import io slog slogjson conc.

(** A caller has returned. *)
Definition returned {A : Type} (t : thread A) : bool :=
  match t with
  | Running (Ret _) => true
  | _ => false
  end.

(** A caller is about to call the [Sync] of the wrapped stream, now or
    right after taking the mutex. *)
Definition wants_sync {A : Type} (t : thread A) : bool :=
  match t with
  | Running (CallSync _ _) => true
  | Running (Lock _ (CallSync _ _)) => true
  | _ => false
  end.

(** The steps a program has left when no call on the stream fails: one
    for each lock, unlock and type assertion, one to enter a [Write], one
    per byte and one to leave it, one for a [Sync]. *)
Fixpoint work {A : Type} (p : prog A) : nat :=
  match p with
  | Ret _ => 0
  | Lock _ k => S (work k)
  | Unlock _ k => S (work k)
  | IsSyncer _ k => S (Nat.max (work (k true)) (work (k false)))
  | CallWrite _ p k => 2 + length p + work (k (0%Z, None))
  | CallSync _ k => S (work (k None))
  end.

(** The same for a caller that may be inside a [Write]. *)
Definition thread_work {A : Type} (t : thread A) : nat :=
  match t with
  | Running p => work p
  | Writing _ rest _ k => 1 + length rest + work (k (0%Z, None))
  end.

Definition pool_work {A : Type} (ts : pool A) : nat :=
  sum_list (thread_work <$> ts).

Section WithCollab.
Context `{Collab}.

(** The steps one job can take at most: for an entry that can be
    marshalled, four and one per byte of its payload; none for an entry
    that cannot; four for a sync. *)
Definition budget (j : job) : nat :=
  match j with
  | Log _ ent =>
      match payload ent with
      | Some p => 4 + length p
      | None => 0
      end
  | Flush => 4
  end.

(** The invariant of [conc], with what progress needs on top: a mutex
    that is held is held by a caller of the pool, and a caller goes for
    the stream's [Sync] only when the stream has one. *)
Record live (s : jsonSink) (jobs : list job) (ts : pool (option error))
    (h : store) (phs : nat -> phase) (segs : list (nat * bytes))
    (o : shared) : Prop := {
  live_inv : inv s jobs ts h phs segs o;
  live_holder : locked o = true -> exists i, inside (phs i) = true;
  live_sync : forall i t,
    ts !! i = Some t -> wants_sync t = true -> has_sync o = true
}.

End WithCollab.
End progress.

(** * Properties of the sink *)
Section Properties.
Import io slog slogjson.
Context `{Collab}.

(** ** The emitted object *)

Lemma Encode_Map (m : MapT) :
  Encode (any_Map m) = fields_object m.
Proof.
  unfold fields_object. simpl. f_equal.
  apply map_ext. intros [n x]. reflexivity.
Qed.

Lemma fields_present_length (ent : Entry) :
  (0 <? length (Fields ent))%nat = fields_present ent.
Proof.
  unfold fields_present.
  destruct (Fields ent) as [|f fs]; reflexivity.
Qed.

Lemma emitted_members (ent : Entry) :
  emitted ent
  = VMap (mandatory_members ent ++ tracing_members ent ++ fields_members ent).
Proof.
  unfold emitted. rewrite Encode_Map.
  unfold LogEntry_m, fields_object, tracing_members, fields_members.
  rewrite fields_present_length. fold (tracing_present ent).
  destruct (tracing_present ent), (fields_present ent);
    cbn -[Encode]; rewrite ?Encode_Map; reflexivity.
Qed.

Lemma tracing_present_spec (ent : Entry) :
  tracing_present ent = true <-> SpanContext ent <> SpanContext_zero.
Proof.
  unfold tracing_present.
  rewrite negb_true_iff, bool_decide_eq_false. reflexivity.
Qed.

Lemma fields_present_spec (ent : Entry) :
  fields_present ent = true <-> (0 < length (Fields ent))%nat.
Proof.
  unfold fields_present.
  destruct (Fields ent) as [|f fs]; simpl; split; intros; try done; lia.
Qed.

Lemma keys_emitted (ent : Entry) : keys (emitted ent) = wire_keys ent.
Proof.
  rewrite emitted_members. unfold keys, wire_keys.
  rewrite !map_app. unfold tracing_members, fields_members.
  destruct (tracing_present ent), (fields_present ent); reflexivity.
Qed.

(** The object [LogEntry] marshals and writes is [emitted ent]. *)
Lemma LogEntry_marshals_emitted (s : jsonSink) (ctx : context_Context)
    (ent : Entry) :
  LogEntry s ctx ent = marshal_and_write s (emitted ent).
Proof.
  unfold LogEntry, marshal_and_write. fold (emitted ent).
  destruct (json_Marshal (emitted ent)); reflexivity.
Qed.

(** Membership of a literal key in a literal key list is settled by
    comparing strings. *)
Ltac literal_keys :=
  repeat match goal with
         | |- _ <-> _ => split
         | |- _ -> _ => intro
         | Hin : _ ∈ _ :: _ |- _ => apply elem_of_cons in Hin as [Hin|Hin]
         | Hin : _ ∈ [] |- _ => by apply elem_of_nil in Hin
         | |- _ ∈ _ => by (apply list_elem_of_In; simpl; tauto)
         end; try done.

(** C1. [LogEntry] marshals the object [emitted ent] and writes its bytes,
    followed by a newline, in its one [Write].  The keys of that object
    are [ts], [level], [component], [msg], [caller], [func], then [trace]
    and [span] when the entry has tracing identifiers, then [fields] when
    it has fields, in this order; an optional key that is absent has no
    member at all in the object. *)
Theorem C1_key_order (s : jsonSink) (ctx : context_Context) (ent : Entry) :
  LogEntry s ctx ent = marshal_and_write s (emitted ent)
  /\ keys (emitted ent)
     = ["ts"; "level"; "component"; "msg"; "caller"; "func"]
       ++ (if tracing_present ent then ["trace"; "span"] else [])
       ++ (if fields_present ent then ["fields"] else [])
  /\ (if tracing_present ent then True
      else member "trace" (emitted ent) = None
           /\ member "span" (emitted ent) = None)
  /\ (if fields_present ent then True
      else member "fields" (emitted ent) = None).
Proof.
  split; [apply LogEntry_marshals_emitted|].
  split; [apply keys_emitted|].
  rewrite emitted_members. unfold tracing_members, fields_members.
  destruct (tracing_present ent), (fields_present ent); simpl; auto.
Qed.

(** C2. [LogEntry] marshals and writes the object [emitted ent], and
    [trace] and [span] are keys of that object exactly when the entry's
    span context differs from the zero struct; they are then both there,
    next to each other, and hold the string forms of the trace ID and of
    the span ID. *)
Theorem C2_tracing_keys (s : jsonSink) (ctx : context_Context)
    (ent : Entry) :
  LogEntry s ctx ent = marshal_and_write s (emitted ent)
  /\ ("trace" ∈ keys (emitted ent) <-> SpanContext ent <> SpanContext_zero)
  /\ ("span" ∈ keys (emitted ent) <-> SpanContext ent <> SpanContext_zero)
  /\ member "trace" (emitted ent)
     = (if tracing_present ent
        then Some (VString (TraceID_String (sc_TraceID (SpanContext ent))))
        else None)
  /\ member "span" (emitted ent)
     = (if tracing_present ent
        then Some (VString (SpanID_String (sc_SpanID (SpanContext ent))))
        else None)
  /\ (if tracing_present ent
      then exists rest,
             keys (emitted ent) = mandatory_keys ++ "trace" :: "span" :: rest
      else True).
Proof.
  split; [apply LogEntry_marshals_emitted|].
  rewrite keys_emitted, emitted_members, <- tracing_present_spec.
  unfold wire_keys, mandatory_keys, tracing_members, fields_members.
  destruct (tracing_present ent), (fields_present ent); simpl;
    repeat split; literal_keys; eauto.
Qed.

(** C3. [LogEntry] marshals and writes the object [emitted ent], and
    [fields] is a key of that object exactly when the entry has at least
    one field; its value is then the object with one member per field,
    named and valued as the field, in the order of the entry's field
    collection. *)
Theorem C3_fields_key (s : jsonSink) (ctx : context_Context) (ent : Entry) :
  LogEntry s ctx ent = marshal_and_write s (emitted ent)
  /\ ("fields" ∈ keys (emitted ent) <-> (0 < length (Fields ent))%nat)
  /\ member "fields" (emitted ent)
     = (if fields_present ent
        then Some (VMap (map (fun f => (Name f, Encode (FieldValue f)))
                             (Fields ent)))
        else None)
  /\ keys (fields_object (Fields ent)) = map Name (Fields ent).
Proof.
  split; [apply LogEntry_marshals_emitted|].
  rewrite keys_emitted, emitted_members, <- fields_present_spec.
  unfold wire_keys, mandatory_keys, tracing_members, fields_members.
  split; [|split].
  - destruct (tracing_present ent), (fields_present ent); simpl; literal_keys.
  - destruct (tracing_present ent), (fields_present ent); reflexivity.
  - unfold fields_object, keys. rewrite map_map. reflexivity.
Qed.

(** ** The caller key *)

Lemma uint_decimal_chars (d : Decimal.uint) :
  all_chars decimal_char (NilEmpty.string_of_uint d) = true.
Proof. induction d; simpl; auto. Qed.

Lemma int_decimal_chars (n : Z) :
  all_chars decimal_char (NilZero.string_of_int (Z.to_int n)) = true.
Proof.
  destruct n as [|p|p]; simpl; [reflexivity| |];
    unfold NilZero.string_of_uint;
    destruct (Pos.to_uint p) eqn:E; try reflexivity;
    rewrite <- E; apply uint_decimal_chars.
Qed.

(** Reading the decimal text of an [int] gives the [int] back. *)
Lemma int_decimal_read (n : Z) :
  option_map Z.of_int
    (NilZero.int_of_string (NilZero.string_of_int (Z.to_int n))) = Some n.
Proof.
  rewrite NilZero.isi.
  - simpl. f_equal. apply DecimalZ.of_to.
  - destruct n as [|p|p]; simpl; try discriminate.
    intros [= E]. by apply Unsigned.to_uint_nonnil in E.
  - destruct n as [|p|p]; simpl; try discriminate.
    intros [= E]. by apply Unsigned.to_uint_nonnil in E.
Qed.

(** C8. [LogEntry] marshals and writes the object [emitted ent], and the
    value of [caller] in that object is the entry's file, one colon, and
    the line number in decimal, with nothing else around or between
    them. *)
Theorem C8_caller (s : jsonSink) (ctx : context_Context) (ent : Entry) :
  LogEntry s ctx ent = marshal_and_write s (emitted ent)
  /\ exists line : string,
       member "caller" (emitted ent)
       = Some (VString (File ent +:+ ":" +:+ line))
       /\ line = NilZero.string_of_int (Z.to_int (Line ent))
       /\ option_map Z.of_int (NilZero.int_of_string line) = Some (Line ent)
       /\ all_chars decimal_char line = true.
Proof.
  split; [apply LogEntry_marshals_emitted|].
  exists (NilZero.string_of_int (Z.to_int (Line ent))).
  split; [|split; [reflexivity|split]].
  - rewrite emitted_members. reflexivity.
  - apply int_decimal_read.
  - apply int_decimal_chars.
Qed.

(** ** Running the sink *)

Section Run.
Context {St : Type}.
Implicit Types (h : heap St) (o : object St).

(** A [syncwriter.Write] on an unlocked writer: one call on the wrapped
    stream, with the mutex released again for what follows. *)
Lemma run_syncwriter_Write {A : Type} h r o p res d
    (f : Z * option error -> prog A) :
  h !! r = Some o ->
  mu o = false ->
  Write (io.w o) p (data o) = (res, d) ->
  run (bind (syncwriter.Write r p) f) h
  = after (call_Write r p) (run (f res) (<[r := set_data d o]> h)).
Proof.
  intros Hr Hmu Hw. destruct o as [m wr st]. simpl in *. subst m.
  rewrite Hr. simpl. rewrite lookup_insert_eq. simpl. rewrite Hw.
  rewrite lookup_insert_eq. simpl.
  rewrite !insert_insert_eq. reflexivity.
Qed.

(** The calls of a [syncwriter.Write] followed by code that makes none:
    at most the one [Write]. *)
Lemma calls_syncwriter_Write {A : Type} h r p
    (f : Z * option error -> prog A) :
  (forall res h', calls (run (f res) h') = []) ->
  calls (run (bind (syncwriter.Write r p) f) h) = []
  \/ calls (run (bind (syncwriter.Write r p) f) h) = [call_Write r p].
Proof.
  intros Hf. simpl.
  destruct (h !! r) as [o|] eqn:Hr; [|by left].
  destruct (mu o) eqn:Hmu; [by left|].
  simpl. rewrite lookup_insert_eq. simpl.
  destruct (Write (io.w o) p (data o)) as [res d]. simpl. right.
  rewrite lookup_insert_eq. simpl. by rewrite Hf.
Qed.

End Run.

Section Sequential.
Context {St : Type}.
Implicit Types (h : heap St) (o : object St) (s : jsonSink) (ent : Entry).

(** What [LogEntry] does after a successful [Write] or a failed one makes
    no call. *)
Lemma LogEntry_tail_calls (res : Z * option error) h :
  calls (run (match snd res with
              | Some err =>
                  Ret (Some (Errorf "slogjson: failed to write JSON entry: %w" err))
              | None => Ret None
              end) h) = [].
Proof. destruct (snd res); reflexivity. Qed.

(** C4. When marshalling the entry fails with [cause], [LogEntry] is the
    program that returns at once the error wrapping [cause] under the
    message of the sink: on every heap it makes no call on any stream and
    leaves the heap as it was. *)
Theorem C4_encode_error s ctx ent cause h :
  json_Marshal (emitted ent) = inr cause ->
  let err := wrapError "slogjson: failed to encode entry to JSON" cause in
  LogEntry s ctx ent = Ret (Some err)
  /\ run (LogEntry s ctx ent) h
     = {| ending := Done (Some err); final := h; calls := [] |}
  /\ Unwrap err = Some cause
  /\ String.prefix "slogjson: " (Error err) = true.
Proof.
  intros Hm err. unfold LogEntry. fold (emitted ent). rewrite Hm.
  repeat split.
Qed.

(** C5. When marshalling succeeds and the one [Write] on the wrapped
    stream fails with [cause], [LogEntry] returns [cause] wrapped under
    the message "slogjson: failed to write JSON entry"; that [Write] is
    the only call made, and the mutex is free again. *)
Theorem C5_write_error s ctx ent buf h o n cause d :
  json_Marshal (emitted ent) = inl buf ->
  h !! slogjson.w s = Some o ->
  mu o = false ->
  Write (io.w o) (buf ++ [newline]) (data o) = ((n, Some cause), d) ->
  let err := wrapError "slogjson: failed to write JSON entry" cause in
  run (LogEntry s ctx ent) h
  = {| ending := Done (Some err);
       final := <[slogjson.w s := set_data d o]> h;
       calls := [call_Write (slogjson.w s) (buf ++ [newline])] |}
  /\ Unwrap err = Some cause
  /\ Error err = "slogjson: failed to write JSON entry: " +:+ Error cause.
Proof.
  intros Hm Hr Hmu Hw err. unfold LogEntry. fold (emitted ent). rewrite Hm.
  cbv zeta. rewrite (run_syncwriter_Write _ _ _ _ _ _ _ Hr Hmu Hw).
  repeat split.
Qed.

(** Running [m] and then [f]: the run of [m], followed by the run of [f]
    on its result when it has one. *)
Lemma run_bind {A B : Type} (m : prog A) (f : A -> prog B) h :
  run (bind m f) h
  = match ending (run m h) with
    | Done a =>
        {| ending := ending (run (f a) (final (run m h)));
           final := final (run (f a) (final (run m h)));
           calls := calls (run m h) ++ calls (run (f a) (final (run m h))) |}
    | Blocked =>
        {| ending := Blocked; final := final (run m h);
           calls := calls (run m h) |}
    | Panic =>
        {| ending := Panic; final := final (run m h);
           calls := calls (run m h) |}
    end.
Proof.
  revert h.
  induction m as [a|r k IH|r k IH|r k IH|r p k IH|r k IH]; intros h; simpl.
  - by destruct (run (f a) h).
  - destruct (h !! r) as [o|]; [|done]. destruct (mu o); [done|]. apply IH.
  - destruct (h !! r) as [o|]; [|done]. destruct (mu o); [|done]. apply IH.
  - destruct (h !! r) as [o|]; [|done]. apply IH.
  - destruct (h !! r) as [o|]; [|done].
    destruct (Write (io.w o) p (data o)) as [res d]. simpl.
    rewrite IH. by destruct (ending (run (k res) _)).
  - destruct (h !! r) as [o|]; [|done].
    destruct (io.Sync (io.w o)) as [sync|]; [|done].
    destruct (sync (data o)) as [e d]. simpl.
    rewrite IH. by destruct (ending (run (k e) _)).
Qed.

(** Whatever the synchronized writer is made of: when its [Write] returns
    the error [cause], [LogEntry] returns [cause] wrapped once, and does
    nothing after that [Write]. *)
Lemma LogEntry_wraps_Write_error s ctx ent buf h n cause h' cs :
  json_Marshal (emitted ent) = inl buf ->
  run (syncwriter.Write (slogjson.w s) (buf ++ [newline])) h
  = {| ending := Done (n, Some cause); final := h'; calls := cs |} ->
  run (LogEntry s ctx ent) h
  = {| ending :=
         Done (Some (wrapError "slogjson: failed to write JSON entry" cause));
       final := h'; calls := cs |}.
Proof.
  intros Hm Hw. unfold LogEntry. fold (emitted ent). rewrite Hm. cbv zeta.
  rewrite run_bind, Hw. simpl. by rewrite app_nil_r.
Qed.

(** C6. On every heap [LogEntry] makes no call on a wrapped stream or
    exactly one, and that one is a [Write] on the sink's writer whose
    argument is the marshalled object followed by one newline byte. *)
Theorem C6_single_write s ctx ent h :
  calls (run (LogEntry s ctx ent) h) = []
  \/ exists buf,
       json_Marshal (emitted ent) = inl buf
       /\ calls (run (LogEntry s ctx ent) h)
          = [call_Write (slogjson.w s) (buf ++ [newline])].
Proof.
  unfold LogEntry. fold (emitted ent).
  destruct (json_Marshal (emitted ent)) as [buf|cause]; [|by left].
  cbv zeta.
  destruct (calls_syncwriter_Write h (slogjson.w s) (buf ++ [newline]) _
              LogEntry_tail_calls) as [E|E]; [by left|right; eauto].
Qed.

(** C9. Two sinks on the same writer that differ in [color] are the same
    program on every entry, so they end alike, leave the same heap and
    make the same calls with the same bytes. *)
Theorem C9_color_irrelevant (r : ref) (c1 c2 : bool) ctx ent :
  LogEntry {| slogjson.w := r; color := c1 |} ctx ent
  = LogEntry {| slogjson.w := r; color := c2 |} ctx ent
  /\ forall h,
       run (LogEntry {| slogjson.w := r; color := c1 |} ctx ent) h
       = run (LogEntry {| slogjson.w := r; color := c2 |} ctx ent) h.
Proof. split; reflexivity. Qed.

(** C10. [jsonSink.Sync] is the [Sync] of the sink's synchronized writer
    and nothing more: on every heap it ends as that call ends, with the
    same returned error. *)
Theorem C10_sync_passthrough s :
  Sync s = syncwriter.Sync (slogjson.w s)
  /\ forall h, run (Sync s) h = run (syncwriter.Sync (slogjson.w s)) h.
Proof. split; reflexivity. Qed.

(** The error of the wrapped stream's own [Sync] reaches the caller of
    [jsonSink.Sync] as it is. *)
Lemma Sync_returns_stream_error s h o sync e d :
  h !! slogjson.w s = Some o ->
  mu o = false ->
  io.Sync (io.w o) = Some sync ->
  sync (data o) = (e, d) ->
  run (Sync s) h
  = {| ending := Done e;
       final := <[slogjson.w s := set_data d o]> h;
       calls := [call_Sync (slogjson.w s)] |}.
Proof.
  intros Hr Hmu Hs He. destruct o as [m wr st]. simpl in *. subst m.
  unfold Sync, syncwriter.Sync. simpl. rewrite Hr. simpl. rewrite Hs.
  rewrite bool_decide_true by eauto. simpl. rewrite Hr. simpl.
  rewrite lookup_insert_eq. simpl. rewrite Hs, He.
  rewrite lookup_insert_eq. simpl. rewrite !insert_insert_eq. reflexivity.
Qed.

(** A stream without [Sync]: [jsonSink.Sync] succeeds and calls nothing. *)
Lemma Sync_without_syncer s h o :
  h !! slogjson.w s = Some o ->
  io.Sync (io.w o) = None ->
  run (Sync s) h = {| ending := Done None; final := h; calls := [] |}.
Proof.
  intros Hr Hs. unfold Sync, syncwriter.Sync. simpl. rewrite Hr, Hs.
  rewrite bool_decide_false; [reflexivity|]. by intros [? ?].
Qed.

End Sequential.
End Properties.

(** * Concurrent callers of one sink *)
Section Concurrent.
Import io slog slogjson conc.
Context `{Collab}.
Implicit Types (s : jsonSink) (j : job) (jobs : list job).
Implicit Types (ts : pool (option error)) (h : store).
Implicit Types (phs : nat -> phase) (segs : list (nat * bytes)).

(** [LogEntry] as a program: nothing but a return when marshalling fails,
    and otherwise lock, one [Write] of the payload, unlock, return. *)
Lemma LogEntry_unfold s ctx ent :
  LogEntry s ctx ent
  = match json_Marshal (emitted ent) with
    | inr cause =>
        Ret (Some (wrapError "slogjson: failed to encode entry to JSON" cause))
    | inl buf =>
        Lock (slogjson.w s)
          (CallWrite (slogjson.w s) (buf ++ [newline])
             (write_rest (slogjson.w s)))
    end.
Proof.
  unfold LogEntry. fold (emitted ent).
  destruct (json_Marshal (emitted ent)); reflexivity.
Qed.

Lemma after_Write_Ret (res : Z * option error) :
  after_Write res = Ret (write_outcome (snd res)).
Proof. unfold after_Write. destruct (snd res); reflexivity. Qed.

Lemma write_outcome_None (e : option error) :
  write_outcome e = None -> e = None.
Proof. destruct e; [discriminate|reflexivity]. Qed.

Lemma tinv_start s j : tinv s j (Running (start s j)) (Outside None).
Proof.
  destruct j as [ctx ent|]; simpl; [|constructor].
  rewrite LogEntry_unfold.
  destruct (json_Marshal (emitted ent)) as [buf|cause] eqn:E.
  - apply tinv_ready. unfold payload. by rewrite E.
  - by apply tinv_failed.
Qed.

(** ** Segments and tagged bytes *)

Lemma tagged_app segs1 segs2 :
  tagged (segs1 ++ segs2) = tagged segs1 ++ tagged segs2.
Proof. unfold tagged. by rewrite map_app, concat_app. Qed.

Lemma tagged_begin segs i : tagged (segs ++ [(i, [])]) = tagged segs.
Proof. rewrite tagged_app. unfold tagged. simpl. by rewrite app_nil_r. Qed.

Lemma tagged_extend segs i c b :
  tagged (segs ++ [(i, c)]) ++ [(i, b)] = tagged (segs ++ [(i, c ++ [b])]).
Proof.
  rewrite !tagged_app. unfold tagged. simpl.
  rewrite !app_nil_r, map_app, <- app_assoc. reflexivity.
Qed.

Lemma untag_segment (i : nat) (c : bytes) : (map (pair i) c).*2 = c.
Proof. induction c as [|b c IHc]; [reflexivity|]. cbn. by f_equal. Qed.

Lemma tagged_bytes segs : (tagged segs).*2 = concat segs.*2.
Proof.
  induction segs as [|[i c] segs IH]; [reflexivity|].
  change (tagged ((i, c) :: segs)) with (map (pair i) c ++ tagged segs).
  rewrite fmap_app, IH, untag_segment. reflexivity.
Qed.

(** ** The invariant holds at the start and after every step *)

Lemma inv_init s jobs h o :
  h !! slogjson.w s = Some o ->
  output o = [] ->
  inv s jobs (spawn s jobs) h (fun _ => Outside None) [] o.
Proof.
  intros Hh Ho. split; try done.
  - unfold spawn. by rewrite length_fmap.
  - intros i j t Hj Ht. unfold spawn in Ht.
    rewrite list_lookup_fmap, Hj in Ht. simplify_eq/=. apply tinv_start.
  - constructor.
  - intros i c Hin. by apply elem_of_nil in Hin.
Qed.

Ltac open_inv I :=
  destruct I as [Hlen Hdef Hthr Hheap Hout Hnd Hsw Hws Hex Hunl Hlast].

(** A caller that moves to another point of the same phase. *)
Lemma inv_same_phase s jobs ts h phs segs o i j t' :
  inv s jobs ts h phs segs o ->
  jobs !! i = Some j ->
  tinv s j t' (phs i) ->
  inv s jobs (<[i := t']> ts) h phs segs o.
Proof.
  intros I Hj Ht'. open_inv I. split; try done.
  - by rewrite length_insert.
  - intros i0 j0 t0 Hj0 Ht0.
    destruct (decide (i0 = i)) as [->|Hne].
    + rewrite list_lookup_insert_eq in Ht0
        by (rewrite Hlen; by eapply lookup_lt_Some).
      by simplify_eq.
    + rewrite list_lookup_insert_ne in Ht0 by done. eauto.
Qed.

(** The threads of a pool after caller [i] moved to [t'] with phase [ph']. *)
Lemma threads_update s jobs ts phs i j t' ph' :
  length ts = length jobs ->
  (forall i j t, jobs !! i = Some j -> ts !! i = Some t -> tinv s j t (phs i)) ->
  jobs !! i = Some j ->
  tinv s j t' ph' ->
  forall i0 j0 t0,
    jobs !! i0 = Some j0 -> <[i := t']> ts !! i0 = Some t0 ->
    tinv s j0 t0 (<[i := ph']> phs i0).
Proof.
  intros Hlen Hthr Hj Ht' i0 j0 t0 Hj0 Ht0.
  destruct (decide (i0 = i)) as [->|Hne].
  - rewrite list_lookup_insert_eq in Ht0
      by (rewrite Hlen; by eapply lookup_lt_Some).
    rewrite fn_lookup_insert. by simplify_eq.
  - rewrite list_lookup_insert_ne in Ht0 by done.
    rewrite fn_lookup_insert_ne by done. eauto.
Qed.

Lemma default_update jobs phs i j ph' :
  (forall i, (length jobs <= i)%nat -> phs i = Outside None) ->
  jobs !! i = Some j ->
  forall i0, (length jobs <= i0)%nat -> <[i := ph']> phs i0 = Outside None.
Proof.
  intros Hdef Hj i0 Hi0. apply lookup_lt_Some in Hj.
  rewrite fn_lookup_insert_ne by lia. auto.
Qed.

(** The job of a caller of the pool. *)
Lemma job_of s jobs ts h phs segs o i t :
  inv s jobs ts h phs segs o ->
  ts !! i = Some t ->
  exists j, jobs !! i = Some j /\ tinv s j t (phs i).
Proof.
  intros I Ht. open_inv I.
  destruct (jobs !! i) as [j|] eqn:Hj.
  - eauto.
  - apply lookup_ge_None in Hj. apply lookup_lt_Some in Ht. lia.
Qed.

(** Taking the mutex. *)
Lemma inv_lock s jobs ts h phs segs o i j t' :
  inv s jobs ts h phs segs o ->
  jobs !! i = Some j ->
  phs i = Outside None ->
  locked o = false ->
  tinv s j t' (Inside None) ->
  inv s jobs (<[i := t']> ts) (<[slogjson.w s := set_locked true o]> h)
    (<[i := Inside None]> phs) segs (set_locked true o).
Proof.
  intros I Hj Hph Hfree Ht'. open_inv I.
  assert (Hin : forall i0, inside (<[i := Inside None]> phs i0) = true -> i0 = i).
  { intros i0. destruct (decide (i = i0)) as [->|Hne]; [done|].
    rewrite fn_lookup_insert_ne by done. by rewrite Hunl. }
  split; try done.
  - by rewrite length_insert.
  - by eapply default_update.
  - by eapply threads_update.
  - by rewrite lookup_insert_eq.
  - intros i0 c Hc. destruct (decide (i = i0)) as [->|Hne].
    + apply Hsw in Hc. by rewrite Hph in Hc.
    + rewrite fn_lookup_insert_ne by done. auto.
  - intros i0 c. destruct (decide (i = i0)) as [->|Hne].
    + by rewrite fn_lookup_insert.
    + rewrite fn_lookup_insert_ne by done. auto.
  - intros i1 i2 H1 H2. apply Hin in H1, H2. congruence.
  - intros i0 c. destruct (decide (i = i0)) as [->|Hne].
    + by rewrite fn_lookup_insert.
    + rewrite fn_lookup_insert_ne by done. auto.
Qed.

(** Releasing the mutex. *)
Lemma inv_unlock s jobs ts h phs segs o i j t' sg :
  inv s jobs ts h phs segs o ->
  jobs !! i = Some j ->
  phs i = Inside sg ->
  tinv s j t' (Outside sg) ->
  inv s jobs (<[i := t']> ts) (<[slogjson.w s := set_locked false o]> h)
    (<[i := Outside sg]> phs) segs (set_locked false o).
Proof.
  intros I Hj Hph Ht'. open_inv I.
  assert (Hout' : forall i0, inside (<[i := Outside sg]> phs i0) = false).
  { intros i0. destruct (decide (i = i0)) as [->|Hne].
    - by rewrite fn_lookup_insert.
    - rewrite fn_lookup_insert_ne by done.
      destruct (inside (phs i0)) eqn:E; [|done].
      exfalso. apply Hne. apply Hex; [by rewrite Hph|done]. }
  split; try done.
  - by rewrite length_insert.
  - by eapply default_update.
  - by eapply threads_update.
  - by rewrite lookup_insert_eq.
  - intros i0 c Hc. destruct (decide (i = i0)) as [->|Hne].
    + rewrite fn_lookup_insert. apply Hsw in Hc. by rewrite Hph in Hc.
    + rewrite fn_lookup_insert_ne by done. auto.
  - intros i0 c. destruct (decide (i = i0)) as [->|Hne].
    + rewrite fn_lookup_insert. intros Hc. apply Hws. by rewrite Hph.
    + rewrite fn_lookup_insert_ne by done. auto.
  - intros i1 i2 H1. by rewrite Hout' in H1.
  - intros i0 c Hc. specialize (Hout' i0). by rewrite Hc in Hout'.
Qed.

(** Entering the [Write] call: an empty segment is opened for the caller. *)
Lemma inv_begin s jobs ts h phs segs o i j t' :
  inv s jobs ts h phs segs o ->
  jobs !! i = Some j ->
  phs i = Inside None ->
  tinv s j t' (Inside (Some [])) ->
  inv s jobs (<[i := t']> ts) h
    (<[i := Inside (Some [])]> phs) (segs ++ [(i, [])]) o.
Proof.
  intros I Hj Hph Ht'. open_inv I.
  assert (Hfresh : i ∉ segs.*1).
  { intros Hin. apply list_elem_of_fmap in Hin as [[i0 c] [Heq Hin]].
    simpl in Heq. subst i0. apply Hsw in Hin. by rewrite Hph in Hin. }
  assert (Hin : forall i0, inside (<[i := Inside (Some [])]> phs i0)
                           = inside (phs i0)).
  { intros i0. destruct (decide (i = i0)) as [->|Hne].
    - by rewrite fn_lookup_insert, Hph.
    - by rewrite fn_lookup_insert_ne. }
  split; try done.
  - by rewrite length_insert.
  - by eapply default_update.
  - by eapply threads_update.
  - by rewrite tagged_begin.
  - rewrite fmap_app. simpl. apply NoDup_app. split; [done|]. split.
    + intros x Hx Hx'. apply list_elem_of_singleton in Hx'. by subst.
    + apply NoDup_singleton.
  - intros i0 c Hc. apply elem_of_app in Hc as [Hc|Hc].
    + destruct (decide (i = i0)) as [->|Hne].
      * apply Hsw in Hc. by rewrite Hph in Hc.
      * rewrite fn_lookup_insert_ne by done. auto.
    + apply list_elem_of_singleton in Hc. simplify_eq.
      by rewrite fn_lookup_insert.
  - intros i0 c. destruct (decide (i = i0)) as [->|Hne].
    + rewrite fn_lookup_insert. simpl. intros [= <-].
      apply elem_of_app. right. by apply list_elem_of_singleton.
    + rewrite fn_lookup_insert_ne by done. intros Hc.
      apply elem_of_app. left. auto.
  - intros i1 i2. rewrite !Hin. apply Hex.
  - intros Hfree i0. rewrite Hin. auto.
  - intros i0 c. destruct (decide (i = i0)) as [->|Hne].
    + rewrite fn_lookup_insert. intros [= <-]. eauto.
    + rewrite fn_lookup_insert_ne by done. intros Hc.
      exfalso. apply Hne. apply Hex; [by rewrite Hph|by rewrite Hc].
Qed.

(** One more byte of the caller inside the mutex: its segment, which is
    the last one, grows by that byte. *)
Lemma inv_byte s jobs ts h phs segs o i j t' c b :
  inv s jobs ts h phs segs o ->
  jobs !! i = Some j ->
  phs i = Inside (Some c) ->
  tinv s j t' (Inside (Some (c ++ [b]))) ->
  exists segs',
    inv s jobs (<[i := t']> ts) (<[slogjson.w s := emit i b o]> h)
      (<[i := Inside (Some (c ++ [b]))]> phs) segs' (emit i b o).
Proof.
  intros I Hj Hph Ht'. open_inv I.
  destruct (Hlast i c Hph) as [segs0 ->].
  exists (segs0 ++ [(i, c ++ [b])]).
  rewrite fmap_app in Hnd. simpl in Hnd.
  apply NoDup_app in Hnd as (Hnd0 & Hfresh & _).
  assert (Hfresh' : i ∉ segs0.*1).
  { intros Hin. apply (Hfresh i Hin). by apply list_elem_of_singleton. }
  assert (Hin : forall i0, inside (<[i := Inside (Some (c ++ [b]))]> phs i0)
                           = inside (phs i0)).
  { intros i0. destruct (decide (i = i0)) as [->|Hne].
    - by rewrite fn_lookup_insert, Hph.
    - by rewrite fn_lookup_insert_ne. }
  split; try done.
  - by rewrite length_insert.
  - by eapply default_update.
  - by eapply threads_update.
  - by rewrite lookup_insert_eq.
  - simpl. rewrite Hout. apply tagged_extend.
  - rewrite fmap_app. simpl. apply NoDup_app. split; [done|]. split.
    + intros x Hx Hx'. apply list_elem_of_singleton in Hx'. by subst.
    + apply NoDup_singleton.
  - intros i0 c0 Hc. apply elem_of_app in Hc as [Hc|Hc].
    + destruct (decide (i = i0)) as [->|Hne].
      * exfalso. apply Hfresh'. apply list_elem_of_fmap. by exists (i0, c0).
      * rewrite fn_lookup_insert_ne by done.
        apply Hsw. apply elem_of_app. by left.
    + apply list_elem_of_singleton in Hc. simplify_eq.
      by rewrite fn_lookup_insert.
  - intros i0 c0. destruct (decide (i = i0)) as [->|Hne].
    + rewrite fn_lookup_insert. simpl. intros [= <-].
      apply elem_of_app. right. by apply list_elem_of_singleton.
    + rewrite fn_lookup_insert_ne by done. intros Hc.
      apply Hws in Hc. apply elem_of_app in Hc as [Hc|Hc].
      * apply elem_of_app. by left.
      * apply list_elem_of_singleton in Hc. by simplify_eq.
  - intros i1 i2. rewrite !Hin. apply Hex.
  - intros Hfree i0. rewrite Hin. auto.
  - intros i0 c0. destruct (decide (i = i0)) as [->|Hne].
    + rewrite fn_lookup_insert. intros [= <-]. eauto.
    + rewrite fn_lookup_insert_ne by done. intros Hc.
      exfalso. apply Hne. apply Hex; [by rewrite Hph|by rewrite Hc].
Qed.

Lemma step_inv s jobs ts h ts' h' phs segs o :
  inv s jobs ts h phs segs o ->
  step (ts, h) (ts', h') ->
  exists phs' segs' o', inv s jobs ts' h' phs' segs' o'.
Proof.
  intros I Hstep.
  inversion Hstep as
    [ ? ? i r k o0 Hi Hr Hfree | ? ? i r k o0 Hi Hr Hheld
    | ? ? i r k o0 Hi Hr | ? ? i r p k Hi
    | ? ? i r b rest n k o0 Hi Hr | ? ? i r n k Hi
    | ? ? i r rest n k e Hi | ? ? i r k o0 e Hi Hr Hsync ];
    subst; clear Hstep;
    destruct (job_of _ _ _ _ _ _ _ _ _ I Hi) as (j & Hj & Ht);
    pose proof (inv_heap _ _ _ _ _ _ _ I) as Hheap.
  all: inversion Ht; subst; simplify_eq.
  all: match goal with
       | Hp : Outside _ = _ |- _ => symmetry in Hp
       | Hp : Inside _ = _ |- _ => symmetry in Hp
       end.
  - (* lock, before the Write *)
    eexists _, _, _. eapply inv_lock; eauto. by constructor.
  - (* lock, before the Sync *)
    eexists _, _, _. eapply inv_lock; eauto. by constructor.
  - (* unlock, after the Write *)
    eexists _, _, _. eapply inv_unlock; eauto.
    rewrite after_Write_Ret. econstructor; eauto.
    intros He. apply write_outcome_None in He. auto.
  - (* unlock, after the Sync *)
    eexists _, _, _. eapply inv_unlock; eauto. by constructor.
  - (* the type assertion *)
    eexists _, _, _. eapply inv_same_phase; eauto.
    match goal with Hp : phs i = _ |- _ => rewrite Hp end.
    destruct (has_sync o0); constructor.
  - (* the Write begins *)
    eexists _, _, _. eapply inv_begin; eauto. by econstructor.
  - (* one byte *)
    lazymatch goal with Hp : _ = Inside (Some ?c) |- _ =>
      destruct (inv_byte _ _ _ _ _ _ _ _ _
                  (Writing (slogjson.w s) rest (n + 1) (write_rest (slogjson.w s)))
                  c b I Hj Hp) as [segs' I'] end.
    + econstructor; eauto. by rewrite <- app_assoc.
    + eauto.
  - (* the Write returns without error *)
    eexists _, _, _. eapply inv_same_phase; eauto.
    match goal with Hp : phs i = _ |- _ => rewrite Hp end.
    econstructor; eauto; rewrite app_nil_r; done.
  - (* the Write returns an error *)
    eexists _, _, _. eapply inv_same_phase; eauto.
    match goal with Hp : phs i = _ |- _ => rewrite Hp end.
    econstructor; eauto; [by eexists|done].
  - (* the Sync returns *)
    eexists _, _, _. eapply inv_same_phase; eauto.
    match goal with Hp : phs i = _ |- _ => rewrite Hp end.
    constructor.
Qed.

Lemma steps_inv s jobs ts h ts' h' phs segs o :
  inv s jobs ts h phs segs o ->
  rtc step (ts, h) (ts', h') ->
  exists phs' segs' o', inv s jobs ts' h' phs' segs' o'.
Proof.
  intros I Hsteps. remember (ts, h) as x eqn:Ex. remember (ts', h') as y eqn:Ey.
  revert ts h phs segs o I Ex.
  induction Hsteps as [x|x [ts1 h1] y Hstep Hsteps IH];
    intros ts h phs segs o I ->.
  - simplify_eq. eauto.
  - destruct (step_inv _ _ _ _ _ _ _ _ _ I Hstep) as (phs1 & segs1 & o1 & I1).
    eapply IH; eauto.
Qed.

(** A caller inside a call on the wrapped stream is inside the mutex. *)
Lemma calling_inside s j (t : thread (option error)) ph :
  tinv s j t ph -> calling t = true -> inside ph = true.
Proof. destruct 1; simpl; intros; done. Qed.

(** C7. Callers of [LogEntry] and [Sync] on one sink, interleaved in any
    way and however the wrapped stream answers: the stream is a sequence
    of segments, one per caller at most, each the beginning of that
    caller's payload and nothing else; the whole payload, ending in its
    newline, for every [LogEntry] that returned [nil]; and no two callers
    are ever inside a call on the wrapped stream at the same time. *)
Theorem C7_no_interleaving s jobs h0 o0 ts h :
  h0 !! slogjson.w s = Some o0 ->
  output o0 = [] ->
  rtc step (spawn s jobs, h0) (ts, h) ->
  exists o segs,
    h !! slogjson.w s = Some o
    /\ output o = tagged segs
    /\ stream o = concat segs.*2
    /\ NoDup segs.*1
    /\ (forall i c, (i, c) ∈ segs ->
          exists ctx ent P,
            jobs !! i = Some (Log ctx ent)
            /\ payload ent = Some P /\ c `prefix_of` P)
    /\ (forall i ctx ent,
          jobs !! i = Some (Log ctx ent) ->
          ts !! i = Some (Running (Ret None)) ->
          exists buf,
            json_Marshal (emitted ent) = inl buf
            /\ (i, buf ++ [newline]) ∈ segs)
    /\ (forall i1 i2 t1 t2,
          ts !! i1 = Some t1 -> ts !! i2 = Some t2 ->
          calling t1 = true -> calling t2 = true -> i1 = i2).
Proof.
  intros Hh0 Ho0 Hsteps.
  destruct (steps_inv _ _ _ _ _ _ _ _ _ (inv_init s jobs h0 o0 Hh0 Ho0) Hsteps)
    as (phs & segs & o & I).
  exists o, segs. pose proof I as I0. open_inv I.
  split; [done|]. split; [done|].
  split; [unfold stream; by rewrite Hout, tagged_bytes|].
  split; [done|]. split; [|split].
  - intros i c Hc. apply Hsw in Hc.
    destruct (jobs !! i) as [j|] eqn:Hj.
    + destruct (ts !! i) as [t|] eqn:Ht.
      * pose proof (Hthr i j t Hj Ht) as Hi.
        destruct Hi; simpl in Hc; try discriminate; simplify_eq;
          eexists _, _, _; (split; [done|]); (split; [done|]);
          try done; by eexists.
      * apply lookup_ge_None in Ht. apply lookup_lt_Some in Hj. lia.
    + apply lookup_ge_None in Hj. rewrite (Hdef i Hj) in Hc. discriminate.
  - intros i ctx ent Hj Ht.
    pose proof (Hthr i _ _ Hj Ht) as Hi.
    inversion Hi; subst.
    match goal with
    | HP : payload ent = Some ?P, Hall : None = None -> ?c = ?P,
      Hph : Outside (Some ?c) = _ |- _ =>
        assert (c = P) as -> by auto;
        unfold payload in HP;
        destruct (json_Marshal (emitted ent)) as [buf|] eqn:E;
          [|discriminate];
        exists buf; split; [done|]; simplify_eq;
        apply Hws; by rewrite <- Hph
    end.
  - intros i1 i2 t1 t2 H1 H2 C1 C2.
    destruct (job_of _ _ _ _ _ _ _ _ _ I0 H1) as (j1 & _ & T1).
    destruct (job_of _ _ _ _ _ _ _ _ _ I0 H2) as (j2 & _ & T2).
    eapply Hex; eapply calling_inside; eauto.
Qed.

End Concurrent.

(** * Concrete runs *)
Section Concrete.
Import io slog slogjson conc sample sample_pool.

(** The example scenario of section 8 of the spec: the line written for
    the sample entry. *)
Example scenario_line :
  calls (run (@LogEntry collab sink tt entry) (heap_of buffer))
  = [call_Write 1 (list_byte_of_string
       ("{" +:+ quote "ts" +:+ ":" +:+ quote "2019-09-10T20:19:07.159852-05:00"
        +:+ "," +:+ quote "level" +:+ ":" +:+ quote "INFO"
        +:+ "," +:+ quote "component" +:+ ":" +:+ quote "comp.subcomp"
        +:+ "," +:+ quote "msg" +:+ ":" +:+ quote "hi"
        +:+ "," +:+ quote "caller" +:+ ":" +:+ quote "slog/examples_test.go:62"
        +:+ "," +:+ quote "func" +:+ ":" +:+ quote "pkg.TestExampleTest"
        +:+ "," +:+ quote "fields" +:+ ":{" +:+ quote "myField" +:+ ":"
        +:+ quote "fieldValue" +:+ "}}") ++ [x0a])].
Proof. vm_compute. reflexivity. Qed.

(** A span context with zero identifiers and a non-zero option word is
    not the zero struct: both keys are emitted, with all-zero texts. *)
Example options_only_span :
  let ent : @Entry collab :=
    {| Time := Time entry; Level := Level entry; Message := Message entry;
       LoggerName := LoggerName entry; Func := Func entry;
       File := File entry; Line := Line entry;
       SpanContext := {| TraceID := repeat x00 16; SpanID := repeat x00 8;
                         TraceOptions := 1 |} : @trace_SpanContext collab;
       Fields := [] |} in
  member "trace" (emitted ent) = Some (VString "00000000000000000000000000000000")
  /\ member "span" (emitted ent) = Some (VString "0000000000000000").
Proof. split; reflexivity. Qed.

Lemma C4_encode_error_witness :
  @json_Marshal collab_unsupported (emitted (entry_with marshal_unsupported))
  = inr (errors_New "json: unsupported value")
  /\ run (@LogEntry collab_unsupported sink tt (entry_with marshal_unsupported))
         (heap_of buffer)
     = {| ending :=
            Done (Some (wrapError "slogjson: failed to encode entry to JSON"
                          (errors_New "json: unsupported value")));
          final := heap_of buffer;
          calls := [] |}.
Proof.
  split; [reflexivity|].
  apply (@C4_encode_error collab_unsupported bytes sink tt
           (entry_with marshal_unsupported)
           (errors_New "json: unsupported value") (heap_of buffer)).
  reflexivity.
Defined.

Lemma C5_write_error_witness :
  ending (run (@LogEntry collab sink tt entry) (heap_of closed_pipe))
  = Done (Some (wrapError "slogjson: failed to write JSON entry"
                  (errors_New "io: read/write on closed pipe"))).
Proof.
  pose proof (@C5_write_error collab bytes sink tt entry
                (list_byte_of_string (text (@emitted collab entry)))
                (heap_of closed_pipe)
                {| mu := false; io.w := closed_pipe; data := [] |}
                0%Z (errors_New "io: read/write on closed pipe") [])
    as W.
  destruct W as [W _]; [reflexivity| reflexivity | reflexivity | reflexivity |].
  rewrite W. reflexivity.
Defined.

(** The end of a concrete run. *)
Ltac run_ends :=
  match goal with
  | |- rtc _ ?x ?y =>
      replace y with x by (vm_compute; reflexivity); apply rtc_refl
  end.

(** One step of one caller of a concrete pool. *)
Tactic Notation "move_caller" uconstr(rule) :=
  eapply rtc_l; [ eapply rule; reflexivity | cbn [insert list_insert] ].

(** A run of the three callers: caller 2 writes its line while caller 1
    looks at the stream, then caller 1 syncs, then caller 0 writes. *)
Lemma sample_run :
  rtc step (@spawn braces sink three_jobs, shared_start)
    (pool_end, shared_end).
Proof.
  unfold spawn, three_jobs. cbn [fmap list_fmap start].
  move_caller (step_lock _ _ 2%nat).
  move_caller (step_write_begin _ _ 2%nat).
  move_caller (step_is_syncer _ _ 1%nat).
  move_caller (step_write_byte _ _ 2%nat).
  move_caller (step_write_byte _ _ 2%nat).
  move_caller (step_write_byte _ _ 2%nat).
  move_caller (step_write_end _ _ 2%nat).
  move_caller (step_unlock _ _ 2%nat).
  move_caller (step_lock _ _ 1%nat).
  move_caller (@step_sync _ _ _ 1%nat _ _ _ None).
  move_caller (step_unlock _ _ 1%nat).
  move_caller (step_lock _ _ 0%nat).
  move_caller (step_write_begin _ _ 0%nat).
  move_caller (step_write_byte _ _ 0%nat).
  move_caller (step_write_byte _ _ 0%nat).
  move_caller (step_write_byte _ _ 0%nat).
  move_caller (step_write_end _ _ 0%nat).
  move_caller (step_unlock _ _ 0%nat).
  run_ends.
Qed.

(** Without the mutex the bytes of two [Write] calls can alternate on the
    stream: the semantics does not make a [Write] atomic by itself. *)
Example bare_writes_interleave :
  rtc step (bare_writers, shared_start)
    ([Running (Ret tt); Running (Ret tt)], mixed_end).
Proof.
  unfold bare_writers.
  move_caller (step_write_begin _ _ 0%nat).
  move_caller (step_write_begin _ _ 1%nat).
  move_caller (step_write_byte _ _ 0%nat).
  move_caller (step_write_byte _ _ 1%nat).
  move_caller (step_write_byte _ _ 0%nat).
  move_caller (step_write_byte _ _ 1%nat).
  move_caller (step_write_end _ _ 0%nat).
  move_caller (step_write_end _ _ 1%nat).
  run_ends.
Qed.

Lemma C7_no_interleaving_witness :
  rtc step (@spawn braces sink three_jobs, shared_start) (pool_end, shared_end)
  /\ exists o segs,
       shared_end !! 1%nat = Some o
       /\ stream o = concat segs.*2
       /\ NoDup segs.*1
       /\ (2%nat, [x7b; x7d; x0a]) ∈ segs
       /\ (0%nat, [x7b; x7d; x0a]) ∈ segs.
Proof.
  split; [exact sample_run|].
  destruct (@C7_no_interleaving braces sink three_jobs shared_start
              {| locked := false; has_sync := true; output := [] |}
              pool_end shared_end)
    as (o & segs & Ho & _ & Hstream & Hnd & _ & Hdone & _);
    [reflexivity | reflexivity | exact sample_run |].
  exists o, segs. repeat split; try done.
  - destruct (Hdone 2%nat tt (entry_with marshal_braces))
      as (buf & Hbuf & Hin); [reflexivity | reflexivity |].
    by injection Hbuf as <-.
  - destruct (Hdone 0%nat tt (entry_with marshal_braces))
      as (buf & Hbuf & Hin); [reflexivity | reflexivity |].
    by injection Hbuf as <-.
Defined.

End Concrete.

(** * More on the emitted object *)
Section Object.
Import io slog slogjson client.
Context `{Collab}.

(** A literal key is not in a list of other literal keys. *)
Ltac fresh_key :=
  let Hin := fresh "Hin" in
  intros Hin;
  repeat (apply elem_of_cons in Hin as [Hin|Hin]; [discriminate|]);
  by apply elem_of_nil in Hin.

(** X1. No key occurs twice among the keys of the emitted object, whatever
    the names of the entry's fields. *)
Theorem emitted_keys_NoDup (ent : Entry) : NoDup (keys (emitted ent)).
Proof.
  rewrite keys_emitted. unfold wire_keys, mandatory_keys.
  destruct (tracing_present ent), (fields_present ent); simpl;
    repeat (apply NoDup_cons; split; [fresh_key|]); apply NoDup_nil_2.
Qed.

(** The mandatory members: [ts] and [level] hold the string forms of
    the time and of the level, [component] the logger name, [msg] the
    message and [func] the function name, whatever else the entry has. *)
Lemma mandatory_values (ent : Entry) :
  member "ts" (emitted ent) = Some (VString (Time_String (Time ent)))
  /\ member "level" (emitted ent) = Some (VString (Level_String (Level ent)))
  /\ member "component" (emitted ent) = Some (VString (LoggerName ent))
  /\ member "msg" (emitted ent) = Some (VString (Message ent))
  /\ member "func" (emitted ent) = Some (VString (Func ent)).
Proof. rewrite emitted_members. repeat split. Qed.

Lemma assoc_app k (l1 l2 : list (string * slog_Value)) :
  assoc k (l1 ++ l2)
  = match assoc k l1 with Some v => Some v | None => assoc k l2 end.
Proof.
  induction l1 as [|[k' v] l1 IH]; [reflexivity|]. simpl.
  destruct (String.eqb k k'); [reflexivity|apply IH].
Qed.

Lemma assoc_fields_members k (ent : Entry) :
  k <> "fields" -> assoc k (fields_members ent) = None.
Proof.
  intros Hk. unfold fields_members.
  destruct (fields_present ent); [|reflexivity]. simpl.
  destruct (String.eqb_spec k "fields"); [done|reflexivity].
Qed.

(** X3. The entry's fields reach the emitted object under [fields] only:
    every other key has the same value whatever the field collection is,
    also when a field has the name of one of these keys. *)
Theorem fields_confined (ent : Entry) (fs : MapT) (k : string) :
  k <> "fields" ->
  member k (emitted (with_Fields fs ent)) = member k (emitted ent).
Proof.
  intros Hk. rewrite !emitted_members. unfold member.
  rewrite !app_assoc, !(assoc_app k (_ ++ _)), !assoc_fields_members by done.
  reflexivity.
Qed.

(** ** Reading the caller back *)

Lemma decimal_no_colon (d : string) :
  all_chars decimal_char d = true -> split_last_colon d = None.
Proof.
  induction d as [|c d IH]; [reflexivity|]. simpl.
  intros [Hc Hd]%andb_true_iff. rewrite (IH Hd).
  destruct (Ascii.eqb_spec c ":"%char) as [->|]; [discriminate|reflexivity].
Qed.

Lemma split_file_line (file line : string) :
  split_last_colon line = None ->
  split_last_colon (file +:+ ":" +:+ line) = Some (file, line).
Proof.
  intros Hline. induction file as [|c file IH].
  - change (split_last_colon (String ":"%char line) = Some (EmptyString, line)).
    simpl. by rewrite Hline.
  - change (split_last_colon (String c (file +:+ ":" +:+ line))
            = Some (String c file, line)).
    simpl. by rewrite IH.
Qed.

(** X4. [LogEntry] marshals and writes the object [emitted ent], and the
    [caller] value of that object can be read back: splitting it at its
    last colon gives the entry's file and line, also when the file name
    itself contains colons. *)
Theorem caller_read_back (s : jsonSink) (ctx : context_Context)
    (ent : Entry) :
  LogEntry s ctx ent = marshal_and_write s (emitted ent)
  /\ exists c,
       member "caller" (emitted ent) = Some (VString c)
       /\ read_caller c = Some (File ent, Line ent).
Proof.
  split; [apply LogEntry_marshals_emitted|].
  eexists. split; [rewrite emitted_members; reflexivity|].
  unfold read_caller.
  rewrite split_file_line by apply decimal_no_colon, int_decimal_chars.
  pose proof (int_decimal_read (Line ent)) as Hread.
  destruct (NilZero.int_of_string _) as [d|]; [|discriminate].
  simpl in *. injection Hread as Hread. by rewrite Hread.
Qed.

End Object.

(** * More on sequential runs *)
Section Runs.
Import io slog slogjson client.
Context `{Collab}.
Context {St : Type}.
Implicit Types (h : heap St) (o : object St) (s : jsonSink) (ent : Entry).

(** X5. On a writer whose mutex is free, [LogEntry] of an entry that can be
    marshalled makes its one [Write], leaves the stream as that [Write]
    left it and the mutex free, and returns [nil] exactly when the [Write]
    returned a [nil] error: the byte count [n] is not looked at. *)
Theorem LogEntry_run s ctx ent buf h o n err d :
  json_Marshal (emitted ent) = inl buf ->
  h !! slogjson.w s = Some o ->
  mu o = false ->
  Write (io.w o) (buf ++ [newline]) (data o) = ((n, err), d) ->
  run (LogEntry s ctx ent) h
  = {| ending := Done (write_outcome err);
       final := <[slogjson.w s := set_data d o]> h;
       calls := [call_Write (slogjson.w s) (buf ++ [newline])] |}
  /\ (write_outcome err = None <-> err = None).
Proof.
  intros Hm Hr Hmu Hw. split.
  - unfold LogEntry. fold (emitted ent). rewrite Hm. cbv zeta.
    rewrite (run_syncwriter_Write _ _ _ _ _ _ _ Hr Hmu Hw).
    simpl. by destruct err.
  - by destruct err.
Qed.

(** X6. How a [LogEntry] call can end, on any heap.  It returns [nil] only
    after a [Write] that returned no error; it returns an error only as
    the cause of a failed marshalling or of a failed [Write], wrapped
    under the message of that step; it waits for ever only on a mutex
    that is held; it panics only on a writer that does not exist. *)
Theorem LogEntry_endings s ctx ent h :
  match ending (run (LogEntry s ctx ent) h) with
  | Done None =>
      exists buf o n d,
        json_Marshal (emitted ent) = inl buf
        /\ h !! slogjson.w s = Some o
        /\ Write (io.w o) (buf ++ [newline]) (data o) = ((n, None), d)
  | Done (Some e) =>
      (exists cause,
         json_Marshal (emitted ent) = inr cause
         /\ e = wrapError "slogjson: failed to encode entry to JSON" cause)
      \/ (exists buf o n cause d,
            json_Marshal (emitted ent) = inl buf
            /\ h !! slogjson.w s = Some o
            /\ Write (io.w o) (buf ++ [newline]) (data o)
               = ((n, Some cause), d)
            /\ e = wrapError "slogjson: failed to write JSON entry" cause)
  | Blocked =>
      (exists o, h !! slogjson.w s = Some o /\ mu o = true)
      /\ calls (run (LogEntry s ctx ent) h) = []
      /\ final (run (LogEntry s ctx ent) h) = h
  | Panic =>
      h !! slogjson.w s = None
      /\ calls (run (LogEntry s ctx ent) h) = []
      /\ final (run (LogEntry s ctx ent) h) = h
  end.
Proof.
  unfold LogEntry. fold (emitted ent).
  destruct (json_Marshal (emitted ent)) as [buf|cause] eqn:Hm.
  - cbv zeta. simpl.
    destruct (h !! slogjson.w s) as [o|] eqn:Hr; [|done].
    destruct (mu o) eqn:Hmu; [by (split; [exists o|])|].
    simpl. rewrite lookup_insert_eq. simpl.
    destruct (Write (io.w o) (buf ++ [newline]) (data o))
      as [[n [cause|]] d] eqn:Hw; simpl; rewrite lookup_insert_eq; simpl.
    + right. by exists buf, o, n, cause, d.
    + by exists buf, o, n, d.
  - simpl. left. by exists cause.
Qed.

Lemma set_data_same o : set_data (data o) o = o.
Proof. by destruct o. Qed.

Lemma set_data_twice (d1 d2 : St) o :
  set_data d2 (set_data d1 o) = set_data d2 o.
Proof. reflexivity. Qed.

(** X7. A sequence of [LogEntry] calls on a writer whose mutex is free runs
    to its end, whatever the [Write]s return: it makes one [Write] per
    entry that can be marshalled, in the order of the entries, each with
    that entry's payload, and none for the others. *)
Theorem LogEntries_run s ctx (ents : list Entry) h o :
  h !! slogjson.w s = Some o ->
  mu o = false ->
  run (LogEntries s ctx ents) h
  = {| ending := Done tt;
       final := <[slogjson.w s :=
                    set_data (stream_after (io.w o) (data o) ents) o]> h;
       calls := writes_of (slogjson.w s) ents |}.
Proof.
  revert h o. induction ents as [|ent rest IH]; intros h o Hr Hmu.
  - simpl. rewrite set_data_same, insert_id by done. reflexivity.
  - cbn [LogEntries]. rewrite run_bind.
    unfold writes_of. cbn [omap list_omap stream_after].
    unfold payload at 1 2.
    destruct (json_Marshal (emitted ent)) as [buf|cause] eqn:Hm.
    + destruct (Write (io.w o) (buf ++ [newline]) (data o))
        as [[n err] d] eqn:Hw.
      destruct (LogEntry_run s ctx ent buf h o n err d Hm Hr Hmu Hw)
        as [-> _].
      cbn [ending final calls fmap option_fmap option_map snd].
      rewrite (IH _ (set_data d o)); [|by rewrite lookup_insert_eq|done].
      cbn [ending final calls]. rewrite insert_insert_eq. reflexivity.
    + assert (run (LogEntry s ctx ent) h
              = stop (Done (Some (wrapError
                  "slogjson: failed to encode entry to JSON" cause))) h)
        as ->.
      { unfold LogEntry. fold (emitted ent). by rewrite Hm. }
      cbn [stop ending final calls fmap option_fmap option_map].
      rewrite (IH h o Hr Hmu). reflexivity.
Qed.

(** How a [Sync] call can end, on any heap.  It never writes.  On a
    stream without [Sync] it returns [nil] and touches nothing; on a
    stream with [Sync] it makes that one call and returns its error as it
    is; it waits for ever only on a mutex that is held, and panics only on
    a writer that does not exist, in both cases without a call. *)
Lemma Sync_endings s h :
  match ending (run (Sync s) h) with
  | Done e =>
      exists o,
        h !! slogjson.w s = Some o
        /\ match io.Sync (io.w o) with
           | None =>
               e = None
               /\ calls (run (Sync s) h) = []
               /\ final (run (Sync s) h) = h
           | Some sync =>
               e = (sync (data o)).1
               /\ calls (run (Sync s) h) = [call_Sync (slogjson.w s)]
               /\ final (run (Sync s) h)
                  = <[slogjson.w s := set_data (sync (data o)).2 o]> h
           end
  | Blocked =>
      (exists o, h !! slogjson.w s = Some o /\ mu o = true)
      /\ calls (run (Sync s) h) = []
      /\ final (run (Sync s) h) = h
  | Panic =>
      h !! slogjson.w s = None
      /\ calls (run (Sync s) h) = []
      /\ final (run (Sync s) h) = h
  end.
Proof.
  unfold Sync, syncwriter.Sync. simpl.
  destruct (h !! slogjson.w s) as [o|] eqn:Hr; [|done].
  destruct (io.Sync (io.w o)) as [sync|] eqn:Hs.
  - rewrite bool_decide_true by eauto. simpl. rewrite Hr.
    destruct (mu o) eqn:Hmu; [by (split; [exists o|])|].
    simpl. rewrite lookup_insert_eq. simpl. rewrite Hs.
    destruct (sync (data o)) as [e d] eqn:He. simpl.
    rewrite lookup_insert_eq. simpl.
    exists o. rewrite Hs, He. simpl.
    repeat split; try done.
    rewrite !insert_insert_eq. f_equal. destruct o. simpl in *. by subst.
  - rewrite bool_decide_false by (by intros [? ?]). simpl.
    exists o. by rewrite Hs.
Qed.

End Runs.

(** * Streams that store what they are given *)
Section Appending.
Import io slog slogjson client.
Context `{Collab}.

Lemma stream_after_appending (wr : Writer bytes) (st : bytes)
    (ents : list Entry) :
  appending wr ->
  stream_after wr st ents = st ++ concat (omap payload ents).
Proof.
  intros Happ. revert st.
  induction ents as [|ent rest IH]; intros st; simpl.
  - by rewrite app_nil_r.
  - destruct (payload ent) as [p|]; simpl; [|apply IH].
    rewrite IH, Happ. simpl. by rewrite <- app_assoc.
Qed.

(** X9. On a stream that stores what it is given, a sequence of [LogEntry]
    calls leaves the lines of the entries that can be marshalled, one
    after the other in the order of the calls, after what the stream
    held before. *)
Theorem LogEntries_lines s ctx (ents : list Entry) (h : heap bytes) o :
  h !! slogjson.w s = Some o ->
  mu o = false ->
  appending (io.w o) ->
  final (run (LogEntries s ctx ents) h) !! slogjson.w s
  = Some (set_data (data o ++ concat (omap payload ents)) o).
Proof.
  intros Hr Hmu Happ. rewrite (LogEntries_run s ctx ents h o Hr Hmu).
  simpl. rewrite lookup_insert_eq. by rewrite stream_after_appending.
Qed.

End Appending.

(** * Making a sink *)
Section Making.
Import io slog slogjson client.
Context `{Collab}.
Context {St : Type}.
Variable Logger : Type.
Variable slog_Make : jsonSink -> Logger.
Variable IsTTY : Writer St -> bool.

Lemma New_fresh (wr : Writer St) (st : St) (h : heap St) :
  (New wr st h).1 <> 0%nat /\ h !! (New wr st h).1 = None.
Proof.
  unfold New. simpl.
  pose proof (is_fresh ({[0%nat]} ∪ dom h)) as Hfresh.
  split.
  - intros E. apply Hfresh. rewrite E. set_solver.
  - apply not_elem_of_dom. set_solver.
Qed.

(** X10. [Make] puts into the logger a sink whose writer is a new object,
    not [nil] and different from every writer there was, with a free
    mutex and the given stream behind it, and whose [color] is what
    [IsTTY] says of the stream; the writers there were are untouched.
    [LogEntry] on that sink therefore neither waits nor panics: it makes
    its one [Write] on the given stream. *)
Theorem Make_then_LogEntry (wr : Writer St) (st : St) (h : heap St)
    ctx ent buf n err d :
  json_Marshal (emitted ent) = inl buf ->
  Write wr (buf ++ [newline]) st = ((n, err), d) ->
  exists s,
    (Make Logger slog_Make IsTTY wr st h).1 = slog_Make s
    /\ color s = IsTTY wr
    /\ slogjson.w s <> 0%nat
    /\ h !! slogjson.w s = None
    /\ (Make Logger slog_Make IsTTY wr st h).2
       = <[slogjson.w s := {| mu := false; io.w := wr; data := st |}]> h
    /\ run (LogEntry s ctx ent) (Make Logger slog_Make IsTTY wr st h).2
       = {| ending := Done (write_outcome err);
            final := <[slogjson.w s :=
                         {| mu := false; io.w := wr; data := d |}]> h;
            calls := [call_Write (slogjson.w s) (buf ++ [newline])] |}.
Proof.
  intros Hm Hw.
  destruct (New_fresh wr st h) as [Hnil Hnew].
  exists {| slogjson.w := (New wr st h).1; color := IsTTY wr |}.
  unfold Make. destruct (New wr st h) as [r h'] eqn:HN.
  unfold New in HN. injection HN as Hr Hh'. simpl in *.
  repeat split; try done.
  - by rewrite <- Hh', Hr.
  - destruct (LogEntry_run {| slogjson.w := r; color := IsTTY wr |} ctx ent
                buf h' {| mu := false; io.w := wr; data := st |} n err d)
      as [-> _]; try done.
    + by rewrite <- Hh', Hr, lookup_insert_eq.
    + f_equal. rewrite <- Hh', Hr. simpl. by rewrite insert_insert_eq.
Qed.

End Making.

(** * Progress of concurrent callers *)
Section Progress.
Import io slog slogjson conc progress.
Context `{Collab}.
Implicit Types (s : jsonSink) (j : job) (jobs : list job).
Implicit Types (ts : pool (option error)) (h : store).
Implicit Types (phs : nat -> phase) (segs : list (nat * bytes)).

Lemma start_wants_no_sync s j : wants_sync (Running (start s j)) = false.
Proof.
  destruct j as [ctx ent|]; [|reflexivity]. simpl.
  rewrite LogEntry_unfold. by destruct (json_Marshal (emitted ent)).
Qed.

Lemma live_init s jobs h o :
  h !! slogjson.w s = Some o ->
  output o = [] ->
  locked o = false ->
  live s jobs (spawn s jobs) h (fun _ => Outside None) [] o.
Proof.
  intros Hh Ho Hfree. split.
  - by apply inv_init.
  - by rewrite Hfree.
  - intros i t Ht Hw. unfold spawn in Ht.
    apply list_lookup_fmap_Some in Ht as (j & -> & _).
    by rewrite start_wants_no_sync in Hw.
Qed.

(** The callers that go for [Sync] after caller [i] moved to [t']. *)
Lemma sync_update ts i (t' : thread (option error)) (o o' : shared) :
  (forall i t, ts !! i = Some t -> wants_sync t = true -> has_sync o = true) ->
  (wants_sync t' = true -> has_sync o = true) ->
  has_sync o' = has_sync o ->
  forall i0 t0,
    <[i := t']> ts !! i0 = Some t0 -> wants_sync t0 = true ->
    has_sync o' = true.
Proof.
  intros Hold Hnew -> i0 t0 Ht0 Hw.
  apply list_lookup_insert_Some in Ht0 as [(-> & -> & _)|(_ & Ht0)]; eauto.
Qed.

(** The holder of the mutex after a caller changed its segment only. *)
Lemma holder_update phs i sg sg' (b : bool) :
  phs i = Inside sg ->
  (b = true -> exists i0, inside (phs i0) = true) ->
  b = true -> exists i0, inside (<[i := Inside sg']> phs i0) = true.
Proof.
  intros Hph Hold Hb. exists i. by rewrite fn_lookup_insert.
Qed.

Lemma step_live s jobs ts h ts' h' phs segs o :
  live s jobs ts h phs segs o ->
  step (ts, h) (ts', h') ->
  exists phs' segs' o', live s jobs ts' h' phs' segs' o'.
Proof.
  intros [I Hholder Hsync] Hstep.
  inversion Hstep as
    [ ? ? i r k o0 Hi Hr Hfree | ? ? i r k o0 Hi Hr Hheld
    | ? ? i r k o0 Hi Hr | ? ? i r p k Hi
    | ? ? i r b rest n k o0 Hi Hr | ? ? i r n k Hi
    | ? ? i r rest n k e Hi | ? ? i r k o0 e Hi Hr Hhas ];
    subst; clear Hstep;
    destruct (job_of _ _ _ _ _ _ _ _ _ I Hi) as (j & Hj & Ht);
    pose proof (inv_heap _ _ _ _ _ _ _ I) as Hheap.
  all: inversion Ht; subst; simplify_eq.
  all: match goal with
       | Hp : Outside _ = _ |- _ => symmetry in Hp
       | Hp : Inside _ = _ |- _ => symmetry in Hp
       end.
  - (* lock, before the Write *)
    eexists _, _, _. split.
    + eapply inv_lock; eauto. by constructor.
    + intros _. exists i. by rewrite fn_lookup_insert.
    + eapply sync_update; [exact Hsync|done|reflexivity].
  - (* lock, before the Sync *)
    eexists _, _, _. split.
    + eapply inv_lock; eauto. by constructor.
    + intros _. exists i. by rewrite fn_lookup_insert.
    + eapply sync_update; [exact Hsync|intros _; by eapply Hsync|reflexivity].
  - (* unlock, after the Write *)
    eexists _, _, _. split.
    + eapply inv_unlock; eauto.
      rewrite after_Write_Ret. econstructor; eauto.
      intros He. apply write_outcome_None in He. auto.
    + done.
    + eapply sync_update; [exact Hsync|by rewrite after_Write_Ret|reflexivity].
  - (* unlock, after the Sync *)
    eexists _, _, _. split.
    + eapply inv_unlock; eauto. by constructor.
    + done.
    + eapply sync_update; [exact Hsync|done|reflexivity].
  - (* the type assertion *)
    eexists _, _, _. split; [|done|].
    + eapply inv_same_phase; eauto.
      match goal with Hp : phs i = _ |- _ => rewrite Hp end.
      destruct (has_sync o0); constructor.
    + eapply sync_update; [exact Hsync|by destruct (has_sync o0)|reflexivity].
  - (* the Write begins *)
    eexists _, _, _. split.
    + eapply inv_begin; eauto. by econstructor.
    + eapply holder_update; eauto.
    + eapply sync_update; [exact Hsync|done|reflexivity].
  - (* one byte *)
    lazymatch goal with Hp : _ = Inside (Some ?c) |- _ =>
      destruct (inv_byte _ _ _ _ _ _ _ _ _
                  (Writing (slogjson.w s) rest (n + 1)
                     (write_rest (slogjson.w s)))
                  c b I Hj Hp) as [segs' I'];
        [econstructor; eauto; by rewrite <- app_assoc|];
      eexists _, segs', _; split; [exact I'| |]
    end.
    + eapply holder_update; eauto.
    + eapply sync_update; [exact Hsync|done|reflexivity].
  - (* the Write returns without error *)
    eexists _, _, _. split; [|done|].
    + eapply inv_same_phase; eauto.
      match goal with Hp : phs i = _ |- _ => rewrite Hp end.
      econstructor; eauto; rewrite app_nil_r; done.
    + eapply sync_update; [exact Hsync|done|reflexivity].
  - (* the Write returns an error *)
    eexists _, _, _. split; [|done|].
    + eapply inv_same_phase; eauto.
      match goal with Hp : phs i = _ |- _ => rewrite Hp end.
      econstructor; eauto; [by eexists|done].
    + eapply sync_update; [exact Hsync|done|reflexivity].
  - (* the Sync returns *)
    eexists _, _, _. split; [|done|].
    + eapply inv_same_phase; eauto.
      match goal with Hp : phs i = _ |- _ => rewrite Hp end.
      constructor.
    + eapply sync_update; [exact Hsync|done|reflexivity].
Qed.

Lemma steps_live s jobs ts h ts' h' phs segs o :
  live s jobs ts h phs segs o ->
  rtc step (ts, h) (ts', h') ->
  exists phs' segs' o', live s jobs ts' h' phs' segs' o'.
Proof.
  intros L Hsteps. remember (ts, h) as x eqn:Ex. remember (ts', h') as y eqn:Ey.
  revert ts h phs segs o L Ex.
  induction Hsteps as [x|x [ts1 h1] y Hstep Hsteps IH];
    intros ts h phs segs o L ->.
  - simplify_eq. eauto.
  - destruct (step_live _ _ _ _ _ _ _ _ _ L Hstep) as (phs1 & segs1 & o1 & L1).
    eapply IH; eauto.
Qed.

(** A caller inside the mutex can always take its next step. *)
Lemma holder_steps s jobs ts h phs segs o i t :
  live s jobs ts h phs segs o ->
  ts !! i = Some t ->
  inside (phs i) = true ->
  exists c', step (ts, h) c'.
Proof.
  intros [I Hholder Hsync] Hi Hin.
  destruct (job_of _ _ _ _ _ _ _ _ _ I Hi) as (j & Hj & Ht).
  pose proof (inv_heap _ _ _ _ _ _ _ I) as Hheap.
  assert (Hheld : locked o = true).
  { destruct (locked o) eqn:E; [done|].
    by rewrite (inv_unlocked _ _ _ _ _ _ _ I E i) in Hin. }
  inversion Ht; subst;
    match goal with
    | Hp : _ = phs i |- _ => rewrite <- Hp in Hin; try discriminate
    end.
  - eexists. eapply step_write_begin; eauto.
  - match goal with Hw : ts !! i = Some (Writing _ ?rest _ _) |- _ =>
      destruct rest as [|b rest'] end.
    + eexists. eapply step_write_end; eauto.
    + eexists. eapply step_write_byte; eauto.
  - eexists. eapply step_unlock; eauto.
  - eexists. eapply (step_sync _ _ _ _ _ _ None); eauto.
  - eexists. eapply step_unlock; eauto.
Qed.

(** A caller outside the mutex that is about to take it can do so, or
    else the caller that holds it can take a step. *)
Lemma waiter_steps s jobs ts h phs segs o i k :
  live s jobs ts h phs segs o ->
  ts !! i = Some (Running (Lock (slogjson.w s) k)) ->
  exists c', step (ts, h) c'.
Proof.
  intros L Hi. pose proof L as [I Hholder Hsync].
  pose proof (inv_heap _ _ _ _ _ _ _ I) as Hheap.
  destruct (locked o) eqn:E.
  - destruct (Hholder eq_refl) as [i0 Hi0].
    destruct (ts !! i0) as [t0|] eqn:Ht0.
    + by eapply holder_steps.
    + apply lookup_ge_None in Ht0.
      rewrite (inv_length _ _ _ _ _ _ _ I) in Ht0.
      by rewrite (inv_default _ _ _ _ _ _ _ I i0 Ht0) in Hi0.
  - eexists. eapply step_lock; eauto.
Qed.

(** X11. No deadlock: however the callers have been interleaved so far, as
    long as one of them has not returned, one of them can take a step. *)
Theorem no_deadlock s jobs h0 o0 ts h i t :
  h0 !! slogjson.w s = Some o0 ->
  output o0 = [] ->
  locked o0 = false ->
  rtc step (spawn s jobs, h0) (ts, h) ->
  ts !! i = Some t ->
  returned t = false ->
  exists c', step (ts, h) c'.
Proof.
  intros Hh0 Ho0 Hfree Hsteps Hi Hret.
  destruct (steps_live _ _ _ _ _ _ _ _ _
              (live_init s jobs h0 o0 Hh0 Ho0 Hfree) Hsteps)
    as (phs & segs & o & L).
  pose proof L as [I _ _].
  destruct (job_of _ _ _ _ _ _ _ _ _ I Hi) as (j & Hj & Ht).
  pose proof (inv_heap _ _ _ _ _ _ _ I) as Hheap.
  inversion Ht; subst; try discriminate;
    try (eapply holder_steps; eauto;
         match goal with Hp : _ = phs i |- _ => by rewrite <- Hp end).
  - by eapply waiter_steps.
  - eexists. eapply step_is_syncer; eauto.
  - by eapply waiter_steps.
Qed.

(** ** A bound on the number of steps *)

Lemma work_after_Write (res : Z * option error) : work (after_Write res) = 0.
Proof. by rewrite after_Write_Ret. Qed.

Lemma pool_work_insert ts i (t t' : thread (option error)) :
  ts !! i = Some t ->
  pool_work (<[i := t']> ts) + thread_work t = pool_work ts + thread_work t'.
Proof.
  unfold pool_work. revert i.
  induction ts as [|t0 ts IH]; intros [|i] Hi; simplify_eq/=; [lia|].
  specialize (IH i Hi). lia.
Qed.

Lemma step_work s jobs ts h ts' h' phs segs o :
  inv s jobs ts h phs segs o ->
  step (ts, h) (ts', h') ->
  pool_work ts' < pool_work ts.
Proof.
  intros I Hstep.
  inversion Hstep as
    [ ? ? i r k o0 Hi Hr Hfree | ? ? i r k o0 Hi Hr Hheld
    | ? ? i r k o0 Hi Hr | ? ? i r p k Hi
    | ? ? i r b rest n k o0 Hi Hr | ? ? i r n k Hi
    | ? ? i r rest n k e Hi | ? ? i r k o0 e Hi Hr Hhas ];
    subst; clear Hstep;
    destruct (job_of _ _ _ _ _ _ _ _ _ I Hi) as (j & Hj & Ht).
  all: inversion Ht; subst.
  all: match goal with
       | |- pool_work (<[_ := ?t']> _) < _ =>
           pose proof (pool_work_insert _ _ _ t' Hi) as Hsum
       end.
  all: simpl in Hsum; rewrite ?work_after_Write in Hsum; try lia.
  destruct (has_sync o0); simpl in Hsum; lia.
Qed.

Lemma spawn_work s jobs : pool_work (spawn s jobs) = sum_list (budget <$> jobs).
Proof.
  unfold pool_work, spawn. induction jobs as [|j jobs IH]; [reflexivity|].
  cbn [fmap list_fmap sum_list sum_list_with]. f_equal; [|exact IH].
  destruct j as [ctx ent|]; [|reflexivity]. simpl.
  rewrite LogEntry_unfold. unfold payload.
  destruct (json_Marshal (emitted ent)) as [buf|cause]; [|reflexivity].
  simpl. lia.
Qed.

Lemma steps_work s jobs n ts h ts' h' phs segs o :
  inv s jobs ts h phs segs o ->
  nsteps step n (ts, h) (ts', h') ->
  n + pool_work ts' <= pool_work ts.
Proof.
  intros I Hsteps. remember (ts, h) as x eqn:Ex. remember (ts', h') as y eqn:Ey.
  revert ts h phs segs o I Ex.
  induction Hsteps as [x|n x [ts1 h1] y Hstep Hsteps IH];
    intros ts h phs segs o I ->.
  - simplify_eq. lia.
  - pose proof (step_work _ _ _ _ _ _ _ _ _ I Hstep) as Hlt.
    destruct (step_inv _ _ _ _ _ _ _ _ _ I Hstep) as (phs2 & segs2 & o2 & I2).
    specialize (IH Ey ts1 h1 phs2 segs2 o2 I2 eq_refl). lia.
Qed.

(** Every interleaving is finite: from their start the callers take at
    most four steps and one per payload byte for each entry that can be
    marshalled, none for an entry that cannot, and four for each sync. *)
Lemma steps_bounded s jobs h0 o0 n ts h :
  h0 !! slogjson.w s = Some o0 ->
  output o0 = [] ->
  nsteps step n (spawn s jobs, h0) (ts, h) ->
  n + pool_work ts <= sum_list (budget <$> jobs).
Proof.
  intros Hh0 Ho0 Hsteps. rewrite <- (spawn_work s).
  eapply steps_work; [by apply inv_init|done].
Qed.

End Progress.

(** * More concrete runs *)
Section MoreConcrete.
Import io slog slogjson conc sample sample_pool client progress.

Lemma fields_confined_witness :
  member "msg" (@emitted collab
                  (with_Fields [ @F collab "msg" (@any_string collab "x") ] entry))
  = Some (VString "hi").
Proof.
  rewrite (@fields_confined collab entry
             [ @F collab "msg" (@any_string collab "x") ] "msg");
    [reflexivity|discriminate].
Defined.

Lemma LogEntry_run_witness :
  ending (run (@LogEntry collab sink tt entry) (heap_of buffer)) = Done None.
Proof.
  destruct (@LogEntry_run collab bytes sink tt entry
              (list_byte_of_string (text (@emitted collab entry)))
              (heap_of buffer)
              {| mu := false; io.w := buffer; data := [] |}
              (Z.of_nat (length (list_byte_of_string
                                   (text (@emitted collab entry)) ++ [x0a])))
              None
              (list_byte_of_string (text (@emitted collab entry)) ++ [x0a]))
    as [-> _]; reflexivity.
Defined.

Lemma LogEntries_run_witness :
  calls (run (@LogEntries collab sink tt [entry; traced_entry])
             (heap_of closed_pipe))
  = @writes_of collab 1%nat [entry; traced_entry].
Proof.
  rewrite (@LogEntries_run collab bytes sink tt [entry; traced_entry]
             (heap_of closed_pipe)
             {| mu := false; io.w := closed_pipe; data := [] |});
    reflexivity.
Defined.

Lemma LogEntries_lines_witness :
  final (run (@LogEntries collab sink tt [entry; traced_entry])
             (heap_of buffer)) !! 1%nat
  = Some {| mu := false; io.w := buffer;
            data := concat (omap (@payload collab) [entry; traced_entry]) |}.
Proof.
  apply (@LogEntries_lines collab sink tt [entry; traced_entry]
           (heap_of buffer) {| mu := false; io.w := buffer; data := [] |});
    [reflexivity | reflexivity | intros p st; reflexivity].
Defined.

Lemma Make_then_LogEntry_witness :
  exists s,
    (@Make bytes jsonSink (fun s => s) (fun _ => false) buffer [] (heap_of buffer)).1
    = s
    /\ color s = false
    /\ slogjson.w s <> 0%nat
    /\ heap_of buffer !! slogjson.w s = None
    /\ (@Make bytes jsonSink (fun s => s) (fun _ => false) buffer []
          (heap_of buffer)).2
       = <[slogjson.w s := {| mu := false; io.w := buffer; data := [] |}]>
           (heap_of buffer)
    /\ run (@LogEntry collab s tt entry)
           (@Make bytes jsonSink (fun s => s) (fun _ => false) buffer []
              (heap_of buffer)).2
       = {| ending := Done None;
            final := <[slogjson.w s :=
                         {| mu := false; io.w := buffer;
                            data := list_byte_of_string
                                      (text (@emitted collab entry)) ++ [x0a] |}]>
                       (heap_of buffer);
            calls := [call_Write (slogjson.w s)
                        (list_byte_of_string
                           (text (@emitted collab entry)) ++ [x0a])] |}.
Proof.
  apply (@Make_then_LogEntry collab bytes jsonSink (fun s => s)
           (fun _ => false) buffer [] (heap_of buffer) tt entry
           (list_byte_of_string (text (@emitted collab entry)))
           (Z.of_nat (length (list_byte_of_string
                                (text (@emitted collab entry)) ++ [x0a])))
           None
           (list_byte_of_string (text (@emitted collab entry)) ++ [x0a]));
    reflexivity.
Defined.

(** Caller 2 takes the mutex, enters its [Write] and writes one byte. *)
Lemma contended_run :
  rtc step (@spawn braces sink three_jobs, shared_start)
    (pool_contended, shared_contended).
Proof.
  unfold spawn, three_jobs. cbn [fmap list_fmap start].
  eapply rtc_l; [eapply (step_lock _ _ 2%nat); reflexivity|].
  cbn [insert list_insert].
  eapply rtc_l; [eapply (step_write_begin _ _ 2%nat); reflexivity|].
  cbn [insert list_insert].
  eapply rtc_l; [eapply (step_write_byte _ _ 2%nat); reflexivity|].
  cbn [insert list_insert].
  match goal with
  | |- rtc _ ?x ?y =>
      replace y with x by (vm_compute; reflexivity); apply rtc_refl
  end.
Qed.

(** With caller 2 inside the mutex and caller 0 waiting for it, some
    caller can take a step. *)
Lemma no_deadlock_witness :
  rtc step (@spawn braces sink three_jobs, shared_start)
    (pool_contended, shared_contended)
  /\ pool_contended !! 0%nat
     = Some (Running (Lock 1%nat
               (CallWrite 1%nat [x7b; x7d; x0a] (write_rest 1%nat))))
  /\ (exists o, shared_contended !! 1%nat = Some o /\ locked o = true)
  /\ exists c', step (pool_contended, shared_contended) c'.
Proof.
  split; [exact contended_run|].
  split; [reflexivity|].
  split; [eexists; split; reflexivity|].
  apply (@no_deadlock braces sink three_jobs shared_start
           {| locked := false; has_sync := true; output := [] |}
           pool_contended shared_contended 0%nat
           (Running (@start braces sink
                       (@Log braces tt (entry_with marshal_braces)))));
    try reflexivity.
  exact contended_run.
Defined.

End MoreConcrete.
